(** * Notes API: validation, ownership, pagination and error mapping

    A shallow embedding of the four handlers of
    [src/app/api/[[...route]]/note.ts] (create, update, list, get-one),
    together with the small pieces of the JavaScript runtime and of the
    record store they rely on.

    Conventions of the embedding:
    - a JavaScript string is the list of its UTF-16 code units, so that
      [length] is JavaScript's [.length];
    - a JavaScript number holding an integer is a [Z] (or [NaN]), computed
      with exactly; a double does the same as long as magnitudes stay
      within 2^53, and the statements that depend on larger values carry
      that bound as a hypothesis;
    - a handler is a computation over the table of notes that may throw,
      and that records every call made to the store. *)

From Stdlib Require Import List ZArith NArith Bool Lia String Ascii QArith Qround.
From Stdlib Require Import Sorted Permutation.
Import ListNotations.

(* ================================================================== *)
(** ** JavaScript strings *)

Module JS.

Definition codeunit := N.
Definition jsstring := list codeunit.

(** Literals: an ASCII Rocq string read as code units. *)
Definition js (s : string) : jsstring :=
  List.map N_of_ascii (list_ascii_of_string s).

Local Open Scope N_scope.

Definition between (lo hi c : N) : bool := (lo <=? c) && (c <=? hi).

(** WhiteSpace and LineTerminator code units (ECMA-262, 12.2 and 12.3):
    what [String.prototype.trim] strips and what [parseInt] skips. *)
Definition isWhiteSpace (c : codeunit) : bool :=
  between 9 13 c || (c =? 32) || (c =? 160) || (c =? 5760)
  || between 8192 8202 c || (c =? 8232) || (c =? 8233) || (c =? 8239)
  || (c =? 8287) || (c =? 12288) || (c =? 65279).

Fixpoint trimStart (s : jsstring) : jsstring :=
  match s with
  | c :: s' => if isWhiteSpace c then trimStart s' else s
  | [] => []
  end.

Definition trimEnd (s : jsstring) : jsstring := rev (trimStart (rev s)).

Definition trim (s : jsstring) : jsstring := trimEnd (trimStart s).

(** [s.length] *)
Definition len (s : jsstring) : Z := Z.of_nat (List.length s).

(** *** Numbers

    Integers are kept exact and unbounded. This is what a double holds
    and computes for magnitudes up to 2^53; beyond, a double rounds (and
    overflows to Infinity), which the embedding does not follow. *)

Inductive number : Type :=
| NaN
| Num (z : Z).

Definition isNaN (x : number) : bool :=
  match x with NaN => true | Num _ => false end.

(** [Math.max] and [Math.min]: [NaN] as soon as an argument is. *)
Definition Math_max (x y : number) : number :=
  match x, y with
  | Num a, Num b => Num (Z.max a b)
  | _, _ => NaN
  end.

Definition Math_min (x y : number) : number :=
  match x, y with
  | Num a, Num b => Num (Z.min a b)
  | _, _ => NaN
  end.

(** Comparisons: false as soon as an operand is [NaN]. *)
Definition lt (x y : number) : bool :=
  match x, y with
  | Num a, Num b => (a <? b)%Z
  | _, _ => false
  end.

Definition gt (x y : number) : bool := lt y x.

Definition sub (x y : number) : number :=
  match x, y with
  | Num a, Num b => Num (a - b)
  | _, _ => NaN
  end.

Definition mul (x y : number) : number :=
  match x, y with
  | Num a, Num b => Num (a * b)
  | _, _ => NaN
  end.

(** [x / y], kept as an exact fraction; [None] stands for the results that
    are not finite ([NaN], or a division by zero). *)
Definition div (x y : number) : option Q :=
  match x, y with
  | Num a, Num b => if (b =? 0)%Z then None else Some (inject_Z a / inject_Z b)%Q
  | _, _ => None
  end.

Definition Math_ceil (q : option Q) : number :=
  match q with
  | Some q => Num (Qceiling q)
  | None => NaN
  end.

(** *** parseInt(s, 10) *)

Definition isDigit (c : codeunit) : bool := between 48 57 c.

Fixpoint digitsPrefix (s : jsstring) : list codeunit :=
  match s with
  | c :: s' => if isDigit c then c :: digitsPrefix s' else []
  | [] => []
  end.

Definition digitsValue (ds : list codeunit) : Z :=
  fold_left (fun acc d => (10 * acc + (Z.of_N d - 48))%Z) ds 0%Z.

(** Leading white space is skipped, one sign is read, then the longest
    run of decimal digits; no digit at all gives [NaN]. Whatever follows
    the digits is ignored. The value is the exact integer of the digits,
    which is the number JavaScript returns when it is within 2^53. *)
Definition parseInt (s : jsstring) : number :=
  let s1 := trimStart s in
  let '(sign, s2) :=
    match s1 with
    | 45 :: r => ((-1)%Z, r)
    | 43 :: r => (1%Z, r)
    | _ => (1%Z, s1)
    end in
  match digitsPrefix s2 with
  | [] => NaN
  | ds => Num (sign * digitsValue ds)
  end.

(** *** Regular expressions

    The fragment used by the identifier pattern, matched with the [i]
    flag and anchored at both ends. *)

Inductive regex : Type :=
| Eps
| Char (c : codeunit)
| Class (members : list codeunit)
| Opt (r : regex)
| Rep (r : regex) (n : nat)
| Cat (r1 r2 : regex).

Definition seq_re (rs : list regex) : regex := fold_right Cat Eps rs.

(** Canonicalize (ECMA-262, 22.2.2.7.3) for a pattern without the [u]
    flag: the upper-case form, except that a code unit outside ASCII is
    never folded onto an ASCII one. The pattern below has ASCII members
    only, and for those it is enough to fold ASCII letters. *)
Definition canonicalize (c : codeunit) : codeunit :=
  if between 97 122 c then c - 32 else c.

Definition sameChar (a c : codeunit) : bool :=
  canonicalize a =? canonicalize c.

(** [rmatch r s]: every suffix of [s] left after [r] matched a prefix. *)
Fixpoint rmatch (r : regex) (s : jsstring) : list jsstring :=
  match r with
  | Eps => [s]
  | Char a =>
      match s with
      | c :: s' => if sameChar a c then [s'] else []
      | [] => []
      end
  | Class members =>
      match s with
      | c :: s' => if existsb (fun a => sameChar a c) members then [s'] else []
      | [] => []
      end
  | Opt r1 => rmatch r1 s ++ [s]
  | Rep r1 n =>
      (fix rep (n : nat) (s : jsstring) : list jsstring :=
         match n with
         | O => [s]
         | S n' => flat_map (rep n') (rmatch r1 s)
         end) n s
  | Cat r1 r2 => flat_map (rmatch r2) (rmatch r1 s)
  end.

Definition isEmpty (s : jsstring) : bool :=
  match s with [] => true | _ => false end.

(** [s.match(/^r$/i)] is not null. *)
Definition test (r : regex) (s : jsstring) : bool :=
  existsb isEmpty (rmatch r s).

Definition range (lo hi : N) : list codeunit :=
  List.map N.of_nat (seq (N.to_nat lo) (N.to_nat hi + 1 - N.to_nat lo)).

End JS.

Import JS.

(* ================================================================== *)
(** ** Data model *)

Module Notes.

Local Open Scope Z_scope.

(** The authenticated caller put in the context by [getAuthUser]; the
    handlers read its [id] only. *)
Record User : Type := mkUser { user_id : jsstring }.

(** A row of the [note] table. *)
Record Note : Type := mkNote {
  id : jsstring;
  title : jsstring;
  content : jsstring;
  userId : jsstring;
  createdAt : Z;
  updatedAt : Z
}.

(** What every query selects: the row without its owner. *)
Record NoteView : Type := mkView {
  v_id : jsstring;
  v_title : jsstring;
  v_content : jsstring;
  v_createdAt : Z;
  v_updatedAt : Z
}.

Definition select (n : Note) : NoteView :=
  mkView (id n) (title n) (content n) (createdAt n) (updatedAt n).

(** A value found in a parsed JSON body. Numbers are kept when they are
    integers; [VObject] stands for every object or array (always truthy). *)
Inductive jsvalue : Type :=
| VUndefined
| VNull
| VBool (b : bool)
| VNumber (z : Z)
| VString (s : jsstring)
| VObject.

Definition truthy (v : jsvalue) : bool :=
  match v with
  | VUndefined | VNull => false
  | VBool b => b
  | VNumber z => negb (z =? 0)
  | VString s => negb (isEmpty s)
  | VObject => true
  end.

Definition isString (v : jsvalue) : bool :=
  match v with VString _ => true | _ => false end.

Definition asString (v : jsvalue) : jsstring :=
  match v with VString s => s | _ => [] end.

(** [a || b] *)
Definition js_or (a b : jsvalue) : jsvalue := if truthy a then a else b.

(** The value [c.req.json()] resolves to: [null], or a value whose [title]
    and [content] properties are read (both undefined on a number, a
    string, a boolean or an array). *)
Inductive jsbody : Type :=
| BNull
| BFields (title content : jsvalue).

(** The request body: what it parses to, or the parser's complaint. *)
Inductive bodyResult : Type :=
| Parsed (b : jsbody)
| Unparsable (message : string).

(** [c.req.query()]: [page] and [limit] when the URL carries them. *)
Record Query : Type := mkQuery {
  q_page : option jsstring;
  q_limit : option jsstring
}.

(** [query.page ? ... : ...]: undefined and the empty string are falsy. *)
Definition present (v : option jsstring) : bool :=
  match v with
  | Some s => negb (isEmpty s)
  | None => false
  end.

Definition raw (v : option jsstring) : jsstring :=
  match v with Some s => s | None => [] end.

(** Thrown values. *)
Inductive exn : Type :=
| HTTPException (status : Z) (message : string)
| Error (message : string)
| Thrown.

Definition isHTTPException (e : exn) : bool :=
  match e with HTTPException _ _ => true | _ => false end.

(** [error instanceof Error ? error.message : fallback] *)
Definition message_or (e : exn) (fallback : string) : string :=
  match e with
  | HTTPException _ m => m
  | Error m => m
  | Thrown => fallback
  end.

(** The [pagination] object of a list response. *)
Record Pagination : Type := mkPagination {
  total : number;
  page : number;
  limit : number;
  totalPages : number;
  hasNextPage : bool;
  hasPreviousPage : bool
}.

Inductive Payload : Type :=
| Data (note : NoteView)
| SuccessData (note : NoteView)
| SuccessList (notes : list NoteView) (pagination : Pagination).

(** [c.json(payload, status)] *)
Record Response : Type := json {
  payload : Payload;
  status : Z
}.

(* ================================================================== *)
(** ** The store and the handler monad *)

Inductive StoreCall : Type :=
| CallCreate (title content : jsvalue) (userId : jsstring)
| CallFindFirst (id userId : jsstring)
| CallUpdate (id : jsstring) (title content : jsvalue)
| CallFindMany (userId : jsstring) (skip take : number)
| CallCount (userId : jsstring).

Record State : Type := mkState {
  notes : list Note;
  calls : list StoreCall
}.

(** What the outside world decides for one request: the time, and the
    identifier the store would give to a new row. *)
Record World : Type := mkWorld {
  clock : Z;
  next_id : jsstring
}.

Definition M (A : Type) : Type := State -> (exn + A) * State.

Definition ret {A} (a : A) : M A := fun st => (inr a, st).

Definition throw {A} (e : exn) : M A := fun st => (inl e, st).

Definition bind {A B} (m : M A) (k : A -> M B) : M B :=
  fun st =>
    match m st with
    | (inr a, st') => k a st'
    | (inl e, st') => (inl e, st')
    end.

Definition try_catch {A} (m : M A) (handler : exn -> M A) : M A :=
  fun st =>
    match m st with
    | (inr a, st') => (inr a, st')
    | (inl e, st') => handler e st'
    end.

Notation "x <- m ;; k" := (bind m (fun x => k))
  (at level 61, m at next level, right associativity).
Notation "m ;;; k" := (bind m (fun _ => k))
  (at level 61, right associativity).

(** [if (b) throw e] *)
Definition throw_if (b : bool) (e : exn) : M unit :=
  if b then throw e else ret tt.

Definition record (c : StoreCall) : M unit :=
  fun st => (inr tt, mkState (notes st) (calls st ++ [c])).

Definition get_notes : M (list Note) := fun st => (inr (notes st), st).

Definition put_notes (ns : list Note) : M unit :=
  fun st => (inr tt, mkState ns (calls st)).

Fixpoint str_eqb (a b : jsstring) : bool :=
  match a, b with
  | [], [] => true
  | x :: a', y :: b' => (x =? y)%N && str_eqb a' b'
  | _, _ => false
  end.

(** Messages chosen by the libraries; the handlers only pass them on. *)
Definition validation_error : exn := Error "Invalid value provided"%string.
Definition unique_error : exn := Error "Unique constraint failed"%string.
Definition missing_error : exn := Error "Record to update not found"%string.
Definition null_error (property : string) : exn :=
  Error ("Cannot read properties of null (reading '" ++ property ++ "')")%string.

(** A column that takes a string: the value to write, if there is one. *)
Definition column (v : jsvalue) : option (option jsstring) :=
  match v with
  | VUndefined => Some None
  | VString s => Some (Some s)
  | _ => None
  end.

Definition has_id (i : jsstring) (n : Note) : bool := str_eqb (id n) i.

Definition owned_by (u : jsstring) (n : Note) : bool := str_eqb (userId n) u.

(** [prisma.note.create]: both columns are required strings and the key
    is unique. The store assigns the identifier and both timestamps (the
    time of the call). *)
Definition note_create (t c : jsvalue) (u : jsstring) (w : World) : M Note :=
  record (CallCreate t c u) ;;;
  match t, c with
  | VString t', VString c' =>
      ns <- get_notes ;;
      if existsb (has_id (next_id w)) ns then throw unique_error
      else
        let n := mkNote (next_id w) t' c' u (clock w) (clock w) in
        put_notes (ns ++ [n]) ;;; ret n
  | _, _ => throw validation_error
  end.

(** [prisma.note.findFirst({ where: { id, userId } })] *)
Definition note_findFirst (i u : jsstring) : M (option Note) :=
  record (CallFindFirst i u) ;;;
  ns <- get_notes ;;
  ret (find (fun n => has_id i n && owned_by u n) ns).

Definition patch (t c : option jsstring) (now : Z) (n : Note) : Note :=
  mkNote (id n)
         (match t with Some t' => t' | None => title n end)
         (match c with Some c' => c' | None => content n end)
         (userId n) (createdAt n) now.

Fixpoint update_row (i : jsstring) (f : Note -> Note) (ns : list Note)
  : option (Note * list Note) :=
  match ns with
  | [] => None
  | n :: ns' =>
      if has_id i n then Some (f n, f n :: ns')
      else match update_row i f ns' with
           | Some (n', ns'') => Some (n', n :: ns'')
           | None => None
           end
  end.

(** Modelled from the spec: the schema of the [note] table is not in the
    sources; [updatedAt] is refreshed on every successful mutation and
    [createdAt] is immutable (spec, section 3). An undefined field of
    [data] leaves its column as it is. *)
Definition note_update (i : jsstring) (t c : jsvalue) (w : World) : M Note :=
  record (CallUpdate i t c) ;;;
  match column t, column c with
  | Some t', Some c' =>
      ns <- get_notes ;;
      match update_row i (patch t' c' (clock w)) ns with
      | Some (n', ns') => put_notes ns' ;;; ret n'
      | None => throw missing_error
      end
  | _, _ => throw validation_error
  end.

Fixpoint insert_desc (n : Note) (l : list Note) : list Note :=
  match l with
  | [] => [n]
  | m :: l' =>
      if updatedAt m <? updatedAt n then n :: l else m :: insert_desc n l'
  end.

(** [orderBy: { updatedAt: "desc" }]. The source gives no order to rows
    with equal times and the store may pick any; this sort puts them in
    reverse table order, and the statements that depend on the order of
    such rows assume there are none. *)
Definition order_desc (l : list Note) : list Note :=
  fold_right insert_desc [] l.

(** The store takes [skip] and [take] as 64-bit integers. *)
Definition fits64 (z : Z) : bool :=
  (-9223372036854775808 <=? z) && (z <=? 9223372036854775807).

(** [prisma.note.findMany]; a [skip] or a [take] that is not a 64-bit
    integer is refused. The handler calls it with [skip >= 0] and
    [1 <= take <= 100] only. *)
Definition note_findMany (u : jsstring) (skip take : number) : M (list Note) :=
  record (CallFindMany u skip take) ;;;
  match skip, take with
  | Num s, Num t =>
      if fits64 s && fits64 t then
        ns <- get_notes ;;
        ret (firstn (Z.to_nat t)
               (skipn (Z.to_nat s) (order_desc (filter (owned_by u) ns))))
      else throw validation_error
  | _, _ => throw validation_error
  end.

(** [prisma.note.count] *)
Definition note_count (u : jsstring) : M number :=
  record (CallCount u) ;;;
  ns <- get_notes ;;
  ret (Num (Z.of_nat (List.length (filter (owned_by u) ns)))).

(* ================================================================== *)
(** ** Request pieces *)

(** [await c.req.json()] *)
Definition req_json (b : bodyResult) : M jsbody :=
  match b with
  | Parsed v => ret v
  | Unparsable m => throw (Error m)
  end.

(** [body.title] and [body.content] *)
Definition get_title (b : jsbody) : M jsvalue :=
  match b with
  | BNull => throw (null_error "title")
  | BFields t _ => ret t
  end.

Definition get_content (b : jsbody) : M jsvalue :=
  match b with
  | BNull => throw (null_error "content")
  | BFields _ c => ret c
  end.

(** /^[0-9a-f]{8}-?[0-9a-f]{4}-?4[0-9a-f]{3}-?[89ab][0-9a-f]{3}-?[0-9a-f]{12}$/i *)
Definition hex : regex := Class (range 48 57 ++ range 97 102)%N.
Definition hyphen : regex := Opt (Char 45%N).

Definition uuid_re : regex :=
  seq_re [ Rep hex 8; hyphen;
           Rep hex 4; hyphen;
           Char 52%N; Rep hex 3; hyphen;
           Class [56; 57; 97; 98]%N; Rep hex 3; hyphen;
           Rep hex 12 ].

(** [!id || !id.match(...)] *)
Definition invalid_id (i : jsstring) : bool :=
  isEmpty i || negb (test uuid_re i).

(** [!body.title || typeof body.title !== 'string'
     || body.title.trim().length === 0] *)
Definition title_missing (t : jsvalue) : bool :=
  negb (truthy t) || negb (isString t) || (len (trim (asString t)) =? 0).

(** [body.title.length > 255] *)
Definition title_too_long (t : jsvalue) : bool := 255 <? len (asString t).

(* ================================================================== *)
(** ** The handlers *)

(** POST /create, inside [try] *)
Definition create_try (user : User) (b : bodyResult) (w : World) : M Response :=
  body <- req_json b ;;
  t <- get_title body ;;
  throw_if (title_missing t) (HTTPException 400 "Title is required"%string) ;;;
  throw_if (title_too_long t) (HTTPException 400 "Title is too long"%string) ;;;
  c <- get_content body ;;
  note <- note_create t (js_or c (VString [])) (user_id user) w ;;
  ret (json (Data (select note)) 201).

Definition create (user : User) (b : bodyResult) (w : World) : M Response :=
  try_catch (create_try user b w)
    (fun error =>
       throw (HTTPException 500 (message_or error "Failed to create note"%string))).

(** PATCH /update/:id, inside [try] *)
Definition update_try (user : User) (i : jsstring) (b : bodyResult) (w : World)
  : M Response :=
  body <- req_json b ;;
  throw_if (invalid_id i) (HTTPException 400 "Invalid note ID format"%string) ;;;
  existingNote <- note_findFirst i (user_id user) ;;
  throw_if (match existingNote with None => true | Some _ => false end)
           (HTTPException 404 "Note not found"%string) ;;;
  t <- get_title body ;;
  c <- get_content body ;;
  updatedNote <- note_update i t c w ;;
  ret (json (SuccessData (select updatedNote)) 200).

Definition update (user : User) (i : jsstring) (b : bodyResult) (w : World)
  : M Response :=
  try_catch (update_try user i b w)
    (fun error =>
       if isHTTPException error then throw error
       else throw (HTTPException 500 (message_or error "Failed to update note"%string))).

(** The two parsed query values of GET /all *)
Definition parse_page (q : Query) : number :=
  if present (q_page q) then Math_max (Num 1) (parseInt (raw (q_page q)))
  else Num 1.

Definition parse_limit (q : Query) : number :=
  if present (q_limit q)
  then Math_min (Num 100) (Math_max (Num 1) (parseInt (raw (q_limit q))))
  else Num 20.

(** GET /all, inside [try] *)
Definition all_try (user : User) (q : Query) : M Response :=
  let page := parse_page q in
  let limit := parse_limit q in
  throw_if (isNaN page || isNaN limit || lt page (Num 1)
            || lt limit (Num 1) || gt limit (Num 100))
           (HTTPException 400 "Invalid pagination parameters"%string) ;;;
  let skip := mul (sub page (Num 1)) limit in
  notes <- note_findMany (user_id user) skip limit ;;
  total <- note_count (user_id user) ;;
  let totalPages := Math_ceil (div total limit) in
  ret (json (SuccessList (List.map select notes)
               (mkPagination total page limit totalPages
                  (lt page totalPages) (gt page (Num 1))))
            200).

Definition all (user : User) (q : Query) : M Response :=
  try_catch (all_try user q)
    (fun error =>
       throw (HTTPException 500 (message_or error "Failed to fetch notes"%string))).

(** GET /:id, inside [try] *)
Definition get_try (user : User) (i : jsstring) : M Response :=
  throw_if (invalid_id i) (HTTPException 400 "Invalid note ID format"%string) ;;;
  note <- note_findFirst i (user_id user) ;;
  match note with
  | None => throw (HTTPException 404 "Note not found")
  | Some n => ret (json (SuccessData (select n)) 200)
  end.

Definition get (user : User) (i : jsstring) : M Response :=
  try_catch (get_try user i)
    (fun error =>
       if isHTTPException error then throw error
       else throw (HTTPException 500 (message_or error "Failed to fetch note"%string))).

(** The status the caller receives: the one of the response returned, or
    the one of the exception the handler let through. *)
Definition status_of (r : exn + Response) : Z :=
  match r with
  | inr resp => status resp
  | inl (HTTPException s _) => s
  | inl _ => 500
  end.

(** Requests, and the table after a run of them. *)
Inductive Request : Type :=
| Create (user : User) (b : bodyResult)
| Update (user : User) (i : jsstring) (b : bodyResult)
| All (user : User) (q : Query)
| Get (user : User) (i : jsstring).

Definition handle (r : Request) (w : World) : M Response :=
  match r with
  | Create u b => create u b w
  | Update u i b => update u i b w
  | All u q => all u q
  | Get u i => get u i
  end.

Fixpoint run (rs : list (Request * World)) (st : State) : State :=
  match rs with
  | [] => st
  | (r, w) :: rs' => run rs' (snd (handle r w st))
  end.

End Notes.

Import Notes.

(* ================================================================== *)
(** ** Specification-side definitions *)

Module Spec.

Local Open Scope N_scope.

(** The strings a pattern denotes (with the [i] flag). *)
Inductive matches : regex -> jsstring -> Prop :=
| MEps : matches Eps []
| MChar a c : sameChar a c = true -> matches (Char a) [c]
| MClass ms c :
    existsb (fun a => sameChar a c) ms = true -> matches (Class ms) [c]
| MOptNone r : matches (Opt r) []
| MOptSome r s : matches r s -> matches (Opt r) s
| MRepO r : matches (Rep r 0) []
| MRepS r n s1 s2 :
    matches r s1 -> matches (Rep r n) s2 -> matches (Rep r (S n)) (s1 ++ s2)
| MCat r1 r2 s1 s2 :
    matches r1 s1 -> matches r2 s2 -> matches (Cat r1 r2) (s1 ++ s2).

Definition splits (r : regex) (s rest : jsstring) : Prop :=
  exists pre, s = pre ++ rest /\ matches r pre.

(** A hexadecimal digit, in either case. *)
Definition isHexDigit (c : codeunit) : bool :=
  between 48 57 c || between 97 102 c || between 65 70 c.

(** One of 8, 9, a, b, in either case. *)
Definition isVariantNibble (c : codeunit) : bool :=
  (c =? 56) || (c =? 57) || (c =? 97) || (c =? 98) || (c =? 65) || (c =? 66).

Definition hexGroup (n : nat) (g : jsstring) : Prop :=
  List.length g = n /\ forallb isHexDigit g = true.

Definition optionalHyphen (h : jsstring) : Prop := h = [] \/ h = [45].

(** The UUID-v4 textual shape of the spec (section 3): 32 hexadecimal
    digits grouped 8-4-4-4-12, the third group starting with the version
    nibble 4, the fourth with a variant nibble, and a hyphen allowed
    between two groups. *)
Definition uuid_v4_shape (s : jsstring) : Prop :=
  exists g1 h1 g2 h2 g3 h3 v g4 h4 g5,
    s = g1 ++ h1 ++ g2 ++ h2 ++ (52 :: g3) ++ h3 ++ (v :: g4) ++ h4 ++ g5
    /\ hexGroup 8 g1 /\ hexGroup 4 g2 /\ hexGroup 3 g3
    /\ isVariantNibble v = true /\ hexGroup 3 g4 /\ hexGroup 12 g5
    /\ optionalHyphen h1 /\ optionalHyphen h2
    /\ optionalHyphen h3 /\ optionalHyphen h4.

(** A hyphen, or nothing. *)
Definition dash (b : bool) : jsstring := if b then [45] else [].

(** Who owns which identifier, row by row. *)
Definition owners (st : State) : list (jsstring * jsstring) :=
  List.map (fun n => (id n, userId n)) (notes st).

(** The identifier is the key of the table. *)
Definition unique_ids (st : State) : Prop := NoDup (List.map id (notes st)).

(** The row an identifier designates. *)
Definition row (i : jsstring) (st : State) : option Note :=
  find (has_id i) (notes st).

(** [ceil(t / l)] for a positive [l]. *)
Definition ceiling (t l : Z) : Z := ((t + l - 1) / l)%Z.

(** What get-one and update answer when the lookup finds nothing. *)
Definition get_miss (i : jsstring) : exn + Response :=
  if invalid_id i then inl (HTTPException 400 "Invalid note ID format")
  else inl (HTTPException 404 "Note not found").

Definition update_miss (i : jsstring) (b : bodyResult) : exn + Response :=
  match b with
  | Unparsable m => inl (HTTPException 500 m)
  | Parsed _ => get_miss i
  end.

(** Sample values: two callers, an empty table, and a table holding one
    note of the first caller. *)
Definition alice : User := mkUser (js "alice").
Definition bob : User := mkUser (js "bob").
Definition sample_id : jsstring := js "123e4567-e89b-42d3-a456-426614174000".
Definition other_id : jsstring := js "9f1c2d3e-0a1b-4c2d-8e3f-001122334455".
Definition w0 : World := mkWorld 10 sample_id.
Definition w1 : World := mkWorld 25 other_id.
Definition st0 : State := mkState [] [].
Definition st1 : State :=
  mkState [mkNote sample_id (js "T") (js "C") (js "alice") 10 10] [].
Definition blank_title : jsstring := js "   ".
Definition long_title : jsstring := repeat 97 256.

(** Twenty-five notes of the first caller, written at times 1 to 25. *)
Definition st25 : State :=
  mkState
    (List.map (fun k => mkNote (js "n" ++ [N.of_nat k]) (js "T") []
                          (js "alice") 0 (Z.of_nat k))
       (seq 1 25))
    [].

(** Made of white space only (the empty string included). *)
Definition blank (s : jsstring) : bool := forallb isWhiteSpace s.


(** A body field that can be written to a string column of an existing
    row: a string, or nothing. *)
Definition writable (v : jsvalue) : bool :=
  match v with VUndefined | VString _ => true | _ => false end.

(** A content that create accepts: a string, or anything falsy. *)
Definition defaultable (v : jsvalue) : bool := negb (truthy v) || isString v.

(** Most recently updated first. *)
Definition newest_first (l : list NoteView) : Prop :=
  StronglySorted (fun a b => (v_updatedAt b <= v_updatedAt a)%Z) l.

(** The notes of a list response (none when the request failed). *)
Definition page_data (r : exn + Response) : list NoteView :=
  match r with
  | inr (json (SuccessList d _) _) => d
  | _ => []
  end.

(** The notes of a caller, as the store orders them for a list. *)
Definition shelf (u : User) (st : State) : list Note :=
  order_desc (filter (owned_by (user_id u)) (notes st)).

(** A call that reads, and reads the rows of [u] only. *)
Definition reads_of (u : jsstring) (c : StoreCall) : Prop :=
  match c with
  | CallFindFirst _ u' | CallFindMany u' _ _ | CallCount u' => u' = u
  | CallCreate _ _ _ | CallUpdate _ _ _ => False
  end.

(** The integers a JavaScript number holds exactly. Sums, differences
    and products of such integers are computed exactly by JavaScript
    whenever their result is one of them. *)
Definition exact (z : Z) : Prop :=
  (-9007199254740992 <= z <= 9007199254740992)%Z.

(** No two notes of the caller were last updated at the same time. *)
Definition distinct_times (u : User) (st : State) : Prop :=
  NoDup (List.map updatedAt (filter (owned_by (user_id u)) (notes st))).

(** The statuses a handler can answer with. *)
Definition answers (r : exn + Response) (allowed : list Z) : Prop :=
  match r with
  | inr resp => In (status resp) allowed
  | inl (HTTPException s _) => In s allowed
  | inl _ => False
  end.

End Spec.

Import Spec.

(* ================================================================== *)
(** ** The matcher against the language of a pattern *)

Module RegexFacts.

Local Open Scope N_scope.

#[local] Hint Constructors matches : core.

Lemma rmatch_rep (r : regex) (n : nat) (s : jsstring) :
  rmatch (Rep r n) s =
  match n with
  | O => [s]
  | S n' => flat_map (rmatch (Rep r n')) (rmatch r s)
  end.
Proof. destruct n; reflexivity. Qed.

Lemma rmatch_sound (r : regex) :
  forall s rest, In rest (rmatch r s) -> splits r s rest.
Proof.
  induction r as [ | a | ms | r IH | r IH n | r1 IH1 r2 IH2 ]; intros s rest Hin.
  - simpl in Hin. destruct Hin as [<- | []]. exists []. auto.
  - simpl in Hin. destruct s as [ | c s']; [contradiction | ].
    destruct (sameChar a c) eqn:E; [ | contradiction ].
    destruct Hin as [<- | []]. exists [c]. auto.
  - simpl in Hin. destruct s as [ | c s']; [contradiction | ].
    destruct (existsb (fun a => sameChar a c) ms) eqn:E; [ | contradiction ].
    destruct Hin as [<- | []]. exists [c]. auto.
  - simpl in Hin. apply in_app_or in Hin. destruct Hin as [Hin | [<- | []]].
    + destruct (IH _ _ Hin) as (pre & -> & Hm). exists pre. auto.
    + exists []. auto.
  - revert s rest Hin. induction n as [ | n IHn]; intros s rest Hin.
    + simpl in Hin. destruct Hin as [<- | []]. exists []. auto.
    + rewrite rmatch_rep in Hin. apply in_flat_map in Hin.
      destruct Hin as (mid & Hmid & Hrest).
      destruct (IH _ _ Hmid) as (p1 & -> & Hm1).
      destruct (IHn _ _ Hrest) as (p2 & -> & Hm2).
      exists (p1 ++ p2). rewrite <- app_assoc. auto.
  - simpl in Hin. apply in_flat_map in Hin.
    destruct Hin as (mid & Hmid & Hrest).
    destruct (IH1 _ _ Hmid) as (p1 & -> & Hm1).
    destruct (IH2 _ _ Hrest) as (p2 & -> & Hm2).
    exists (p1 ++ p2). rewrite <- app_assoc. auto.
Qed.

Lemma rmatch_complete (r : regex) (pre : jsstring) :
  matches r pre -> forall rest, In rest (rmatch r (pre ++ rest)).
Proof.
  induction 1 as [ | a c E | ms c E | r | r s Hm IH | r
                   | r n s1 s2 H1 IH1 H2 IH2 | r1 r2 s1 s2 H1 IH1 H2 IH2 ];
    intros rest.
  - simpl. auto.
  - simpl. rewrite E. simpl. auto.
  - simpl. rewrite E. simpl. auto.
  - simpl. apply in_or_app. right. simpl. auto.
  - simpl. apply in_or_app. left. apply IH.
  - simpl. auto.
  - rewrite rmatch_rep. apply in_flat_map. exists (s2 ++ rest). split.
    + rewrite <- app_assoc. apply IH1.
    + apply IH2.
  - simpl. apply in_flat_map. exists (s2 ++ rest). split.
    + rewrite <- app_assoc. apply IH1.
    + apply IH2.
Qed.

Lemma test_matches (r : regex) (s : jsstring) :
  test r s = true <-> matches r s.
Proof.
  unfold test. rewrite existsb_exists. split.
  - intros (rest & Hin & Hnil). destruct rest; [ | discriminate ].
    destruct (rmatch_sound _ _ _ Hin) as (pre & -> & Hm).
    now rewrite app_nil_r.
  - intros Hm. exists []. split; [ | reflexivity ].
    rewrite <- (app_nil_r s) at 1. now apply rmatch_complete.
Qed.

Lemma matches_cat (r1 r2 : regex) (s : jsstring) :
  matches (Cat r1 r2) s <->
  exists s1 s2, s = s1 ++ s2 /\ matches r1 s1 /\ matches r2 s2.
Proof.
  split.
  - inversion 1; subst. eauto.
  - intros (s1 & s2 & -> & H1 & H2). auto.
Qed.

Lemma matches_eps (s : jsstring) : matches Eps s <-> s = [].
Proof. split; [ inversion 1; reflexivity | intros ->; auto ]. Qed.

(** *** The characters of the identifier pattern *)

Ltac n2p :=
  unfold isHexDigit, isVariantNibble in *; unfold between in *;
  repeat rewrite ?orb_true_iff, ?andb_true_iff, ?N.leb_le, ?N.eqb_eq in *.

Lemma canonicalize_cases (c : codeunit) :
  (97 <= c <= 122 /\ canonicalize c = c - 32)
  \/ ((c < 97 \/ 122 < c) /\ canonicalize c = c).
Proof.
  unfold canonicalize, between.
  destruct (97 <=? c) eqn:E1; destruct (c <=? 122) eqn:E2; simpl;
    rewrite ?N.leb_le, ?N.leb_gt in *; lia.
Qed.

Ltac eval_canon H :=
  repeat match type of H with
  | context [canonicalize (Npos ?p)] =>
      let v := eval vm_compute in (canonicalize (Npos p)) in
      change (canonicalize (Npos p)) with v in H
  end.

Lemma class_members (ms : list codeunit) (c : codeunit) :
  existsb (fun a => sameChar a c) ms = true ->
  exists a, In a ms /\ canonicalize a = canonicalize c.
Proof.
  rewrite existsb_exists. intros (a & Hin & Hs).
  exists a. split; [assumption | now apply N.eqb_eq].
Qed.

Lemma sameChar_hyphen (c : codeunit) : sameChar 45 c = true <-> c = 45.
Proof.
  unfold sameChar. rewrite N.eqb_eq. split.
  - intros H. eval_canon H.
    destruct (canonicalize_cases c) as [[? E] | [? E]]; rewrite E in H; lia.
  - intros ->. reflexivity.
Qed.

Lemma sameChar_four (c : codeunit) : sameChar 52 c = true <-> c = 52.
Proof.
  unfold sameChar. rewrite N.eqb_eq. split.
  - intros H. eval_canon H.
    destruct (canonicalize_cases c) as [[? E] | [? E]]; rewrite E in H; lia.
  - intros ->. reflexivity.
Qed.

Lemma hex_class (c : codeunit) :
  existsb (fun a => sameChar a c) (range 48 57 ++ range 97 102) = isHexDigit c.
Proof.
  apply eq_true_iff_eq. split.
  - intros H. apply class_members in H. destruct H as (a & Hin & H).
    vm_compute in Hin.
    destruct (canonicalize_cases c) as [[? E] | [? E]]; rewrite E in H;
      repeat (destruct Hin as [<- | Hin]; [ eval_canon H; n2p; lia | ]);
      contradiction.
  - intros H. n2p.
    assert (c = 48 \/ c = 49 \/ c = 50 \/ c = 51 \/ c = 52 \/ c = 53
            \/ c = 54 \/ c = 55 \/ c = 56 \/ c = 57
            \/ c = 97 \/ c = 98 \/ c = 99 \/ c = 100 \/ c = 101 \/ c = 102
            \/ c = 65 \/ c = 66 \/ c = 67 \/ c = 68 \/ c = 69 \/ c = 70)
      as Hc by lia.
    repeat (destruct Hc as [-> | Hc]; [reflexivity | ]). subst c. reflexivity.
Qed.

Lemma variant_class (c : codeunit) :
  existsb (fun a => sameChar a c) [56; 57; 97; 98] = isVariantNibble c.
Proof.
  apply eq_true_iff_eq. split.
  - intros H. apply class_members in H. destruct H as (a & Hin & H).
    simpl in Hin.
    destruct (canonicalize_cases c) as [[? E] | [? E]]; rewrite E in H;
      repeat (destruct Hin as [<- | Hin]; [ eval_canon H; n2p; lia | ]);
      contradiction.
  - intros H. n2p.
    assert (c = 56 \/ c = 57 \/ c = 97 \/ c = 98 \/ c = 65 \/ c = 66)
      as Hc by lia.
    repeat (destruct Hc as [-> | Hc]; [reflexivity | ]). subst c. reflexivity.
Qed.

(** *** The pieces of the identifier pattern *)

Lemma matches_hex (s : jsstring) :
  matches hex s <-> exists c, s = [c] /\ isHexDigit c = true.
Proof.
  unfold hex. split.
  - inversion 1; subst. rewrite hex_class in *. eauto.
  - intros (c & -> & Hc). constructor. now rewrite hex_class.
Qed.

Lemma matches_rep_hex (n : nat) :
  forall g, matches (Rep hex n) g <-> hexGroup n g.
Proof.
  unfold hexGroup. induction n as [ | n IH]; intros g; split.
  - inversion 1; subst. simpl. auto.
  - intros [Hl _]. destruct g; [constructor | discriminate].
  - inversion 1 as [ | | | | | | r n' s1 s2 H1 H2 | ]; subst.
    apply matches_hex in H1. destruct H1 as (c & -> & Hc).
    apply IH in H2. destruct H2 as [Hl Hf]. simpl.
    rewrite Hc, Hf, Hl. auto.
  - intros [Hl Hf]. destruct g as [ | c g]; [discriminate | ].
    simpl in Hl, Hf. apply andb_prop in Hf. destruct Hf as [Hc Hf].
    change (c :: g) with ([c] ++ g). constructor.
    + apply matches_hex. eauto.
    + apply IH. split; [lia | assumption].
Qed.

Lemma matches_hyphen (h : jsstring) : matches hyphen h <-> optionalHyphen h.
Proof.
  unfold hyphen, optionalHyphen. split.
  - inversion 1 as [ | | | | r s Hm | | | ]; subst; [now left | ].
    inversion Hm as [ | a c E | | | | | | ]; subst.
    apply sameChar_hyphen in E. subst. now right.
  - intros [-> | ->]; [constructor | ].
    apply MOptSome. constructor. reflexivity.
Qed.

Lemma matches_four (s : jsstring) : matches (Char 52) s <-> s = [52].
Proof.
  split.
  - inversion 1 as [ | a c E | | | | | | ]; subst.
    apply sameChar_four in E. now subst.
  - intros ->. constructor. reflexivity.
Qed.

Lemma matches_variant (s : jsstring) :
  matches (Class [56; 57; 97; 98]) s <->
  exists v, s = [v] /\ isVariantNibble v = true.
Proof.
  split.
  - inversion 1; subst. rewrite variant_class in *. eauto.
  - intros (v & -> & Hv). constructor. now rewrite variant_class.
Qed.

(** The pattern of the source denotes exactly the shape of the spec. *)
Lemma uuid_re_shape (s : jsstring) : matches uuid_re s <-> uuid_v4_shape s.
Proof.
  unfold uuid_re, seq_re, uuid_v4_shape. simpl fold_right. split.
  - intros H.
    apply matches_cat in H; destruct H as (g1 & ? & -> & ? & H).
    apply matches_cat in H; destruct H as (h1 & ? & -> & ? & H).
    apply matches_cat in H; destruct H as (g2 & ? & -> & ? & H).
    apply matches_cat in H; destruct H as (h2 & ? & -> & ? & H).
    apply matches_cat in H; destruct H as (four & ? & -> & ? & H).
    apply matches_cat in H; destruct H as (g3 & ? & -> & ? & H).
    apply matches_cat in H; destruct H as (h3 & ? & -> & ? & H).
    apply matches_cat in H; destruct H as (var & ? & -> & ? & H).
    apply matches_cat in H; destruct H as (g4 & ? & -> & ? & H).
    apply matches_cat in H; destruct H as (h4 & ? & -> & ? & H).
    apply matches_cat in H; destruct H as (g5 & ? & -> & ? & H).
    apply matches_eps in H. subst.
    repeat match goal with
    | H : matches (Rep hex _) _ |- _ => apply matches_rep_hex in H
    | H : matches hyphen _ |- _ => apply matches_hyphen in H
    | H : matches (Char 52) _ |- _ => apply matches_four in H; subst
    | H : matches (Class _) _ |- _ =>
        apply matches_variant in H; destruct H as (v & -> & ?)
    end.
    rewrite app_nil_r.
    exists g1, h1, g2, h2, g3, h3, v, g4, h4, g5. split; [reflexivity | ].
    repeat (split; [assumption | ]). assumption.
  - intros (g1 & h1 & g2 & h2 & g3 & h3 & v & g4 & h4 & g5 & -> & H1 & H2
            & H3 & Hv & H4 & H5 & Hh1 & Hh2 & Hh3 & Hh4).
    rewrite <- (app_nil_r g5).
    change (52 :: g3) with ([52] ++ g3). change (v :: g4) with ([v] ++ g4).
    rewrite <- !app_assoc.
    repeat (apply MCat;
            [ first [ now apply matches_rep_hex | now apply matches_hyphen
                    | now apply matches_four
                    | apply matches_variant; now eauto ] | ]).
    constructor.
Qed.

(** The validator of the handlers decides the shape of the spec. *)
Lemma invalid_id_shape (i : jsstring) : invalid_id i = false <-> uuid_v4_shape i.
Proof.
  unfold invalid_id. rewrite orb_false_iff, negb_false_iff, test_matches.
  rewrite uuid_re_shape. split; [tauto | ].
  intros H. split; [ | assumption ].
  destruct H as (g1 & h1 & g2 & h2 & g3 & h3 & v & g4 & h4 & g5 & -> & [H1 _] & _).
  destruct g1; [discriminate | reflexivity].
Qed.

Lemma invalid_id_not_shape (i : jsstring) :
  invalid_id i = true <-> ~ uuid_v4_shape i.
Proof.
  rewrite <- invalid_id_shape. destruct (invalid_id i); split; congruence.
Qed.

End RegexFacts.

Import RegexFacts.

(* ================================================================== *)
(** ** The handlers: error mapping *)

Module ErrorMapping.

Local Open Scope Z_scope.

(** What the [catch] of each handler does with a failure raised inside
    its [try]. *)
Lemma create_rewraps user b w st e st' :
  create_try user b w st = (inl e, st') ->
  create user b w st
  = (inl (HTTPException 500 (message_or e "Failed to create note")), st').
Proof. unfold create, try_catch. now intros ->. Qed.


Lemma update_passes_through user i b w st s m st' :
  update_try user i b w st = (inl (HTTPException s m), st') ->
  update user i b w st = (inl (HTTPException s m), st').
Proof. unfold update, try_catch. now intros ->. Qed.

Lemma get_passes_through user i st s m st' :
  get_try user i st = (inl (HTTPException s m), st') ->
  get user i st = (inl (HTTPException s m), st').
Proof. unfold get, try_catch. now intros ->. Qed.

(** C1. In create and in list, a failure classified 400 inside the
    handler does not reach the caller with that status: the [catch] of
    these two handlers wraps everything into a 500 that keeps the message
    only. Shown on a create request with an empty title and on a list
    request with [page=abc]. *)
Theorem classified_failure_rewrapped :
  create_try alice (Parsed (BFields (VString []) VUndefined)) w0 st0
  = (inl (HTTPException 400 "Title is required"), st0)
  /\ create alice (Parsed (BFields (VString []) VUndefined)) w0 st0
     = (inl (HTTPException 500 "Title is required"), st0)
  /\ all_try alice (mkQuery (Some (js "abc")) None) st0
     = (inl (HTTPException 400 "Invalid pagination parameters"), st0)
  /\ all alice (mkQuery (Some (js "abc")) None) st0
     = (inl (HTTPException 500 "Invalid pagination parameters"), st0).
Proof. repeat split; reflexivity. Qed.

(** C10. A create or update request whose body does not parse as JSON is
    answered 500, carrying the parser's message; the store is not
    touched. *)
Theorem unparsable_body_is_500 (user : User) (i : jsstring) (m : string)
    (w : World) (st : State) :
  create user (Unparsable m) w st = (inl (HTTPException 500 m), st)
  /\ update user i (Unparsable m) w st = (inl (HTTPException 500 m), st)
  /\ status_of (fst (create user (Unparsable m) w st)) = 500
  /\ status_of (fst (update user i (Unparsable m) w st)) = 500.
Proof. repeat split; reflexivity. Qed.

End ErrorMapping.

(* ================================================================== *)
(** ** The handlers: title validation *)

Module TitleValidation.

Local Open Scope Z_scope.

Lemma blank_title_classified user s c w st :
  len (trim s) = 0 ->
  create_try user (Parsed (BFields (VString s) c)) w st
  = (inl (HTTPException 400 "Title is required"), st).
Proof.
  intros H.
  cbv [create_try bind req_json get_title ret throw_if title_missing asString].
  rewrite H, Z.eqb_refl, !orb_true_r. reflexivity.
Qed.

Lemma long_title_classified user s c w st :
  len (trim s) <> 0 -> 255 < len s ->
  create_try user (Parsed (BFields (VString s) c)) w st
  = (inl (HTTPException 400 "Title is too long"), st).
Proof.
  intros Ht Hl.
  cbv [create_try bind req_json get_title ret throw_if title_missing
       title_too_long asString].
  apply Z.eqb_neq in Ht. apply Z.ltb_lt in Hl. rewrite Ht, Hl.
  destruct s as [ | x s]; [ discriminate | reflexivity ].
Qed.

(** C2. Neither create nor update answers 400 to a blank or an overlong
    title: create classifies the request (400, with the message) and then
    answers 500; update does not look at the title and stores it. *)
Theorem title_validation_failures :
  len (trim blank_title) = 0 /\ 255 < len long_title
  /\ create alice (Parsed (BFields (VString blank_title) VUndefined)) w0 st0
     = (inl (HTTPException 500 "Title is required"), st0)
  /\ create alice (Parsed (BFields (VString long_title) VUndefined)) w0 st0
     = (inl (HTTPException 500 "Title is too long"), st0)
  /\ status_of (fst (update alice sample_id
                       (Parsed (BFields (VString blank_title) VUndefined))
                       w1 st1)) = 200
  /\ option_map title
       (row sample_id
          (snd (update alice sample_id
                  (Parsed (BFields (VString blank_title) VUndefined)) w1 st1)))
     = Some blank_title
  /\ status_of (fst (update alice sample_id
                       (Parsed (BFields (VString long_title) VUndefined))
                       w1 st1)) = 200.
Proof. repeat split; vm_compute; congruence. Qed.

End TitleValidation.

(* ================================================================== *)
(** ** The handlers: identifiers *)

Module Identifiers.

Local Open Scope Z_scope.

Lemma get_rejects_malformed user i st :
  invalid_id i = true ->
  get user i st = (inl (HTTPException 400 "Invalid note ID format"), st).
Proof.
  intros H. cbv [get get_try try_catch bind throw_if]. rewrite H. reflexivity.
Qed.

Lemma update_rejects_malformed user i body w st :
  invalid_id i = true ->
  update user i (Parsed body) w st
  = (inl (HTTPException 400 "Invalid note ID format"), st).
Proof.
  intros H. cbv [update update_try try_catch bind throw_if req_json ret].
  rewrite H. reflexivity.
Qed.

(** C4 (amended). For an identifier that does not have the UUID-v4 shape,
    get-one answers 400, and so does update whenever its body parses as
    JSON; in both cases the table and the list of calls made to the store
    are exactly what they were. *)
Theorem malformed_id_rejected (user : User) (i : jsstring) (body : jsbody)
    (w : World) (st : State) :
  ~ uuid_v4_shape i ->
  get user i st = (inl (HTTPException 400 "Invalid note ID format"), st)
  /\ update user i (Parsed body) w st
     = (inl (HTTPException 400 "Invalid note ID format"), st).
Proof.
  intros H. apply invalid_id_not_shape in H. split.
  - now apply get_rejects_malformed.
  - now apply update_rejects_malformed.
Qed.

Lemma malformed_id_rejected_witness :
  get bob (js "not-a-uuid") st1
  = (inl (HTTPException 400 "Invalid note ID format"), st1)
  /\ update bob (js "not-a-uuid") (Parsed BNull) w1 st1
     = (inl (HTTPException 400 "Invalid note ID format"), st1).
Proof.
  apply (malformed_id_rejected bob (js "not-a-uuid") BNull w1 st1).
  apply invalid_id_not_shape. vm_compute. reflexivity.
Defined.

(** C4 as stated fails on update: the body is read before the identifier
    is looked at, so a malformed identifier sent with a body that does
    not parse is answered 500. *)
Lemma malformed_id_unparsable_body :
  ~ uuid_v4_shape (js "not-a-uuid")
  /\ update bob (js "not-a-uuid") (Unparsable "Unexpected end of JSON input")
       w1 st1
     = (inl (HTTPException 500 "Unexpected end of JSON input"), st1).
Proof.
  split.
  - apply invalid_id_not_shape. vm_compute. reflexivity.
  - reflexivity.
Qed.

Lemma hexGroup_cons (n : nat) (c : codeunit) (g : jsstring) :
  isHexDigit c = true -> hexGroup n g -> hexGroup (S n) (c :: g).
Proof.
  unfold hexGroup. intros Hc [Hl Hf]. simpl. rewrite Hc, Hf, Hl. auto.
Qed.

Lemma optionalHyphen_dash (b : bool) : optionalHyphen (dash b).
Proof. destruct b; [now right | now left]. Qed.

(** C9. Each of the four hyphens is optional on its own: whatever subset
    of them is written, the identifier is accepted. In particular the
    identifier with a hyphen after the first group and nowhere else is
    accepted, and is looked up in the store by get-one. *)
Theorem partial_hyphens_accepted :
  invalid_id (js "123e4567-e89b42d3a456426614174000") = false
  /\ status_of (fst (get alice (js "123e4567-e89b42d3a456426614174000") st1))
     = 404
  /\ forall (b1 b2 b3 b4 : bool) (g1 g2 g3 g4 g5 : jsstring) (v : codeunit),
      hexGroup 8 g1 -> hexGroup 4 g2 -> hexGroup 3 g3 ->
      isVariantNibble v = true -> hexGroup 3 g4 -> hexGroup 12 g5 ->
      invalid_id (g1 ++ dash b1 ++ g2 ++ dash b2 ++ (52%N :: g3) ++ dash b3
                  ++ (v :: g4) ++ dash b4 ++ g5) = false.
Proof.
  split; [reflexivity | split; [reflexivity | ]].
  intros b1 b2 b3 b4 g1 g2 g3 g4 g5 v H1 H2 H3 Hv H4 H5.
  apply invalid_id_shape.
  exists g1, (dash b1), g2, (dash b2), g3, (dash b3), v, g4, (dash b4), g5.
  split; [reflexivity | ].
  repeat (split; [assumption | ]).
  repeat (split; [apply optionalHyphen_dash | ]). apply optionalHyphen_dash.
Qed.

Lemma partial_hyphens_accepted_witness :
  invalid_id (js "123e4567" ++ dash false ++ js "e89b" ++ dash true
              ++ (52%N :: js "2d3") ++ dash false
              ++ (97%N :: js "456") ++ dash true ++ js "426614174000")
  = false.
Proof.
  apply (proj2 (proj2 partial_hyphens_accepted));
    solve [ split; reflexivity | reflexivity ].
Defined.

End Identifiers.

(* ================================================================== *)
(** ** The handlers: ownership *)

Module Ownership.

Local Open Scope Z_scope.

Lemma str_eqb_eq (a b : jsstring) : str_eqb a b = true <-> a = b.
Proof.
  revert b. induction a as [ | x a IH]; intros [ | y b]; simpl;
    try (split; [discriminate | discriminate]); [tauto | ].
  rewrite andb_true_iff, N.eqb_eq, IH. split.
  - intros [-> ->]. reflexivity.
  - intros E. inversion E. auto.
Qed.

Lemma str_eqb_refl (a : jsstring) : str_eqb a a = true.
Proof. now apply str_eqb_eq. Qed.

Lemma unique_row (ns : list Note) (n m : Note) :
  NoDup (List.map id ns) -> In n ns -> In m ns -> id m = id n -> m = n.
Proof.
  induction ns as [ | x ns IH]; simpl; [contradiction | ].
  intros Hnd Hn Hm E. inversion Hnd as [ | ? ? Hx Hnd']; subst.
  destruct Hn as [-> | Hn]; destruct Hm as [-> | Hm]; auto.
  - exfalso. apply Hx. rewrite <- E. now apply in_map.
  - exfalso. apply Hx. rewrite E. now apply in_map.
Qed.

(** Looking up the note of someone else finds nothing. *)
Lemma foreign_lookup (st : State) (n : Note) (u : jsstring) :
  unique_ids st -> In n (notes st) -> userId n <> u ->
  find (fun m => has_id (id n) m && owned_by u m) (notes st) = None.
Proof.
  intros Hnd Hn Hu.
  destruct (find _ (notes st)) as [m | ] eqn:E; [ | reflexivity ].
  apply find_some in E. destruct E as [Hm E].
  apply andb_prop in E. destruct E as [Ei Eo].
  apply str_eqb_eq in Ei. apply str_eqb_eq in Eo.
  assert (m = n) by (eapply unique_row; eauto). subst m. contradiction.
Qed.

(** Looking up an identifier that no row carries finds nothing. *)
Lemma absent_lookup (st : State) (i u : jsstring) :
  row i st = None ->
  find (fun m => has_id i m && owned_by u m) (notes st) = None.
Proof.
  unfold row. intros Hr.
  destruct (find (fun m => _ && _) (notes st)) as [m | ] eqn:E; [ | reflexivity ].
  apply find_some in E. destruct E as [Hm E].
  apply andb_prop in E. destruct E as [Ei _].
  apply (find_none _ _ Hr) in Hm. congruence.
Qed.

Lemma get_when_missing user i st :
  find (fun m => has_id i m && owned_by (user_id user) m) (notes st) = None ->
  fst (get user i st) = get_miss i /\ notes (snd (get user i st)) = notes st.
Proof.
  intros H. unfold get_miss.
  cbv [get get_try try_catch bind throw_if note_findFirst record get_notes ret].
  destruct (invalid_id i); simpl; [auto | ]. rewrite H. simpl. auto.
Qed.

Lemma update_when_missing user i b w st :
  find (fun m => has_id i m && owned_by (user_id user) m) (notes st) = None ->
  fst (update user i b w st) = update_miss i b
  /\ notes (snd (update user i b w st)) = notes st.
Proof.
  intros H. unfold update_miss, get_miss.
  cbv [update update_try try_catch bind throw_if note_findFirst record
       get_notes ret req_json].
  destruct b as [body | m]; simpl; [ | auto ].
  destruct (invalid_id i); simpl; [auto | ]. rewrite H. simpl. auto.
Qed.

(** C3 (amended). Let a note of the table belong to A, and B be another
    caller. Asked by B for this note, get-one and update answer exactly
    what they answer when no row carries the identifier, and leave the
    table as it is. When the identifier has the UUID-v4 shape, that
    answer is 404 "Note not found" for get-one, and for update whenever
    its body parses as JSON. *)
Theorem foreign_note_not_found (a b : User) (n : Note) (w : World)
    (st : State) :
  unique_ids st -> In n (notes st) ->
  userId n = user_id a -> user_id a <> user_id b ->
  (uuid_v4_shape (id n) ->
     fst (get b (id n) st) = inl (HTTPException 404 "Note not found")
     /\ forall body,
         fst (update b (id n) (Parsed body) w st)
         = inl (HTTPException 404 "Note not found"))
  /\ (forall st2 rb, row (id n) st2 = None ->
        fst (get b (id n) st) = fst (get b (id n) st2)
        /\ fst (update b (id n) rb w st) = fst (update b (id n) rb w st2))
  /\ (forall rb,
        notes (snd (get b (id n) st)) = notes st
        /\ notes (snd (update b (id n) rb w st)) = notes st).
Proof.
  intros Hnd Hn Ha Hab.
  assert (Hf : find (fun m => has_id (id n) m && owned_by (user_id b) m)
                 (notes st) = None)
    by (apply foreign_lookup; congruence).
  split; [ | split ].
  - intros Hs. apply invalid_id_shape in Hs. split.
    + rewrite (proj1 (get_when_missing b (id n) st Hf)).
      unfold get_miss. now rewrite Hs.
    + intros body.
      rewrite (proj1 (update_when_missing b (id n) (Parsed body) w st Hf)).
      unfold update_miss, get_miss. now rewrite Hs.
  - intros st2 rb Hr. apply (absent_lookup _ _ (user_id b)) in Hr. split.
    + rewrite (proj1 (get_when_missing b (id n) st Hf)).
      now rewrite (proj1 (get_when_missing b (id n) st2 Hr)).
    + rewrite (proj1 (update_when_missing b (id n) rb w st Hf)).
      now rewrite (proj1 (update_when_missing b (id n) rb w st2 Hr)).
  - intros rb. split.
    + apply (get_when_missing b (id n) st Hf).
    + apply (update_when_missing b (id n) rb w st Hf).
Qed.

Lemma foreign_note_not_found_witness :
  fst (get bob sample_id st1) = inl (HTTPException 404 "Note not found")
  /\ fst (update bob sample_id (Parsed (BFields (VString (js "mine")) VUndefined))
            w1 st1)
     = inl (HTTPException 404 "Note not found").
Proof.
  assert (Hs : uuid_v4_shape sample_id)
    by (apply invalid_id_shape; vm_compute; reflexivity).
  destruct (foreign_note_not_found alice bob
              (mkNote sample_id (js "T") (js "C") (js "alice") 10 10) w1 st1)
    as [H _].
  - repeat constructor. simpl. tauto.
  - simpl. auto.
  - reflexivity.
  - vm_compute. discriminate.
  - destruct (H Hs) as [Hg Hu]. split; [exact Hg | apply Hu].
Defined.

(** C3 as stated fails on update: sent with a body that does not parse,
    the request of B for the note of A is answered 500, not 404. *)
Lemma foreign_note_unparsable_body :
  In (mkNote sample_id (js "T") (js "C") (user_id alice) 10 10) (notes st1)
  /\ user_id alice <> user_id bob
  /\ update bob sample_id (Unparsable "Unexpected end of JSON input") w1 st1
     = (inl (HTTPException 500 "Unexpected end of JSON input"), st1).
Proof.
  split; [ | split ].
  - simpl. auto.
  - vm_compute. discriminate.
  - reflexivity.
Qed.

End Ownership.

(* ================================================================== *)
(** ** The handlers: pagination *)

Module Pagination.

Local Open Scope Z_scope.

Lemma parse_page_absent (q : Query) :
  q_page q = None \/ q_page q = Some [] -> parse_page q = Num 1.
Proof. unfold parse_page. intros [-> | ->]; reflexivity. Qed.

Lemma parse_limit_absent (q : Query) :
  q_limit q = None \/ q_limit q = Some [] -> parse_limit q = Num 20.
Proof. unfold parse_limit. intros [-> | ->]; reflexivity. Qed.

Lemma parse_page_numeric (q : Query) (s : jsstring) (z : Z) :
  q_page q = Some s -> s <> [] -> parseInt s = Num z ->
  parse_page q = Num (Z.max 1 z)
  /\ (z < 1 -> parse_page q = Num 1).
Proof.
  unfold parse_page. intros -> Hs Hz. simpl raw. rewrite Hz.
  destruct s; [congruence | ]. simpl. split; [reflexivity | ].
  intros Hlt. f_equal. lia.
Qed.

Lemma parse_limit_numeric (q : Query) (s : jsstring) (z : Z) :
  q_limit q = Some s -> s <> [] -> parseInt s = Num z ->
  parse_limit q = Num (Z.min 100 (Z.max 1 z))
  /\ 1 <= Z.min 100 (Z.max 1 z) <= 100.
Proof.
  unfold parse_limit. intros -> Hs Hz. simpl raw. rewrite Hz.
  destruct s; [congruence | ]. simpl. split; [reflexivity | lia].
Qed.



(** C5. A page or a limit that does not parse as an integer is not
    answered 400: the handler classifies the request (400, "Invalid
    pagination parameters") and its [catch] turns that into a 500. *)
Theorem unparsable_pagination_is_500 :
  parseInt (js "abc") = NaN
  /\ all_try alice (mkQuery (Some (js "abc")) None) st1
     = (inl (HTTPException 400 "Invalid pagination parameters"), st1)
  /\ all alice (mkQuery (Some (js "abc")) None) st1
     = (inl (HTTPException 500 "Invalid pagination parameters"), st1)
  /\ all alice (mkQuery None (Some (js "ten"))) st1
     = (inl (HTTPException 500 "Invalid pagination parameters"), st1).
Proof. repeat split; reflexivity. Qed.

(** [Math.ceil(t / l)] is the ceiling of the quotient. *)
Lemma Math_ceil_div (t l : Z) :
  0 < l -> Math_ceil (div (Num t) (Num l)) = Num (ceiling t l).
Proof.
  intros Hl. unfold div, Math_ceil, ceiling.
  destruct (l =? 0) eqn:E; [apply Z.eqb_eq in E; lia | ].
  f_equal. destruct l as [ | p | p]; try lia.
  unfold Qceiling, Qfloor, Qdiv, Qmult, Qinv, Qopp, inject_Z. simpl.
  rewrite Z.mul_1_r.
  pose proof (Z.div_mod (- t) (Z.pos p) ltac:(lia)) as D1.
  pose proof (Z.mod_pos_bound (- t) (Z.pos p) ltac:(lia)) as B1.
  apply Z.div_unique with (r := (t + Z.pos p - 1) - Z.pos p * - (- t / Z.pos p)).
  - left. nia.
  - lia.
Qed.

Lemma ceiling_bounds (t l : Z) :
  0 < l -> (ceiling t l - 1) * l < t <= ceiling t l * l.
Proof.
  intros Hl. unfold ceiling.
  pose proof (Z.div_mod (t + l - 1) l ltac:(lia)) as D.
  pose proof (Z.mod_pos_bound (t + l - 1) l Hl) as B.
  nia.
Qed.

Lemma fits64_exact (z : Z) : exact z -> fits64 z = true.
Proof.
  unfold exact, fits64. rewrite andb_true_iff, !Z.leb_le. lia.
Qed.



End Pagination.

(* ================================================================== *)
(** ** The handlers: what an update changes *)

Module Mutation.

Local Open Scope Z_scope.

(** [update_row] rewrites the row the identifier designates, and nothing
    else. *)
Lemma update_row_row (i : jsstring) (f : Note -> Note) :
  (forall n, id (f n) = id n) ->
  forall ns n' ns',
    update_row i f ns = Some (n', ns') ->
    exists n, find (has_id i) ns = Some n /\ n' = f n
              /\ find (has_id i) ns' = Some n'.
Proof.
  intros Hid. induction ns as [ | x ns IH]; intros n' ns' H; simpl in H.
  - discriminate.
  - destruct (has_id i x) eqn:E.
    + inversion H; subst. exists x. simpl. rewrite E.
      unfold has_id in *. rewrite Hid, E. auto.
    + destruct (update_row i f ns) as [[m ms] | ] eqn:U; [ | discriminate ].
      inversion H; subst. destruct (IH _ _ eq_refl) as (n & Hn & -> & Hn').
      exists n. simpl. rewrite E. auto.
Qed.

Lemma update_row_owners (i : jsstring) (f : Note -> Note) :
  (forall n, id (f n) = id n /\ userId (f n) = userId n) ->
  forall ns n' ns',
    update_row i f ns = Some (n', ns') ->
    List.map (fun n => (id n, userId n)) ns'
    = List.map (fun n => (id n, userId n)) ns.
Proof.
  intros Hf. induction ns as [ | x ns IH]; intros n' ns' H; simpl in H.
  - discriminate.
  - destruct (has_id i x).
    + inversion H; subst. simpl. destruct (Hf x) as [-> ->]. reflexivity.
    + destruct (update_row i f ns) as [[m ms] | ] eqn:U; [ | discriminate ].
      inversion H; subst. simpl. now rewrite (IH _ _ eq_refl).
Qed.

(** A successful update, step by step. *)
Lemma update_success user i t c w st resp st' :
  update user i (Parsed (BFields t c)) w st = (inr resp, st') ->
  exists t' c' n',
    column t = Some t' /\ column c = Some c'
    /\ update_row i (patch t' c' (clock w)) (notes st) = Some (n', notes st')
    /\ resp = json (SuccessData (select n')) 200.
Proof.
  intros H. unfold update, try_catch in H.
  destruct (update_try _ _ _ _ _) as [[e | r] s] eqn:E.
  - destruct (isHTTPException e); discriminate.
  - inversion H; subst r s; clear H.
    cbv [update_try bind throw_if req_json ret note_findFirst record
         get_notes get_title get_content note_update put_notes] in E.
    destruct (invalid_id i); [discriminate | ].
    cbv [notes calls] in E.
    destruct (find _ _); [ | discriminate ].
    destruct (column t) as [t' | ]; [ | discriminate ].
    destruct (column c) as [c' | ]; [ | discriminate ].
    destruct (update_row _ _ _) as [[n' ns'] | ] eqn:U; [ | discriminate ].
    inversion E; subst resp st'; clear E.
    exists t', c', n'. simpl. destruct st. simpl in *. auto.
Qed.

(** C7. After a successful update, the row has the title of the request,
    or the title it had when the request has none, and likewise for the
    content; its [updatedAt] is the time of the request, and its
    identifier, owner and [createdAt] are what they were. The response
    carries this row. *)
Theorem partial_update_keeps_omitted (user : User) (i : jsstring)
    (t c : jsvalue) (w : World) (st st' : State) (resp : Response) :
  update user i (Parsed (BFields t c)) w st = (inr resp, st') ->
  exists n n',
    row i st = Some n /\ row i st' = Some n'
    /\ resp = json (SuccessData (select n')) 200
    /\ (t = VUndefined -> title n' = title n)
    /\ (c = VUndefined -> content n' = content n)
    /\ (forall s, t = VString s -> title n' = s)
    /\ (forall s, c = VString s -> content n' = s)
    /\ updatedAt n' = clock w
    /\ createdAt n' = createdAt n /\ id n' = id n /\ userId n' = userId n.
Proof.
  intros H. apply update_success in H.
  destruct H as (t' & c' & n' & Ht & Hc & U & ->).
  apply update_row_row in U; [ | reflexivity ].
  destruct U as (n & Hn & -> & Hn').
  exists n, (patch t' c' (clock w) n). unfold row.
  repeat (split; [assumption || reflexivity | ]).
  split; [ | split; [ | split; [ | split ] ] ].
  - intros ->. simpl in Ht. inversion Ht. reflexivity.
  - intros ->. simpl in Hc. inversion Hc. reflexivity.
  - intros s ->. simpl in Ht. inversion Ht. reflexivity.
  - intros s ->. simpl in Hc. inversion Hc. reflexivity.
  - simpl. auto.
Qed.

Lemma partial_update_keeps_omitted_witness :
  exists n n',
    row sample_id st1 = Some n
    /\ row sample_id
         (snd (update alice sample_id
                 (Parsed (BFields VUndefined (VString (js "x")))) w1 st1))
       = Some n'
    /\ title n' = title n /\ content n' = js "x" /\ updatedAt n' = 25.
Proof.
  destruct (partial_update_keeps_omitted alice sample_id VUndefined
              (VString (js "x")) w1 st1 _ _ eq_refl)
    as (n & n' & Hn & Hn' & _ & Ht & _ & _ & Hc & Hu & _).
  exists n, n'. repeat split; auto.
Defined.

End Mutation.

(* ================================================================== *)
(** ** The handlers: owners *)

Module Owners.

Local Open Scope Z_scope.

Lemma get_notes_unchanged user i st : notes (snd (get user i st)) = notes st.
Proof.
  cbv [get get_try try_catch bind throw_if note_findFirst record get_notes ret].
  destruct (invalid_id i); simpl; [reflexivity | ].
  destruct (find _ _); reflexivity.
Qed.

Lemma all_notes_unchanged user q st : notes (snd (all user q st)) = notes st.
Proof.
  cbv [all all_try try_catch bind throw_if note_findMany note_count record
       get_notes ret].
  destruct (_ || _); simpl; [reflexivity | ].
  destruct (mul _ _); simpl; [reflexivity | ].
  destruct (parse_limit q); simpl; [reflexivity | ].
  destruct (fits64 _ && fits64 _); reflexivity.
Qed.

Lemma update_owners user i b w st :
  owners (snd (update user i b w st)) = owners st.
Proof.
  cbv [update update_try try_catch bind throw_if req_json ret note_findFirst
       record get_notes get_title get_content note_update put_notes].
  destruct b as [body | m]; simpl; [ | reflexivity ].
  destruct (invalid_id i); simpl; [reflexivity | ].
  destruct (find _ _); simpl; [ | reflexivity ].
  destruct body as [ | t c]; simpl; [reflexivity | ].
  destruct (column t); simpl; [ | reflexivity ].
  destruct (column c); simpl; [ | reflexivity ].
  destruct (update_row _ _ _) as [[n' ns'] | ] eqn:U; simpl; [ | reflexivity ].
  apply Mutation.update_row_owners in U; [ | now split ].
  unfold owners. simpl. exact U.
Qed.

(** create leaves the table as it is, or adds at its end one row owned
    by the caller. *)
Lemma create_owners user b w st :
  owners (snd (create user b w st)) = owners st
  \/ owners (snd (create user b w st))
     = owners st ++ [(next_id w, user_id user)].
Proof.
  cbv [create create_try try_catch bind throw_if req_json ret get_title
       get_content note_create record get_notes put_notes].
  destruct b as [[ | t c] | m]; simpl; auto.
  destruct (title_missing t); simpl; auto.
  destruct (title_too_long t); simpl; auto.
  destruct t; simpl; auto.
  destruct (js_or c (VString [])); simpl; auto.
  destruct (existsb _ _); simpl; auto.
  right. unfold owners. simpl. now rewrite map_app.
Qed.

Lemma handle_owners (r : Request) (w : World) (st : State) :
  owners (snd (handle r w st)) = owners st
  \/ exists u b, r = Create u b
       /\ owners (snd (handle r w st)) = owners st ++ [(next_id w, user_id u)].
Proof.
  destruct r as [u b | u i b | u q | u i]; simpl.
  - destruct (create_owners u b w st); eauto.
  - left. apply update_owners.
  - left. unfold owners. now rewrite all_notes_unchanged.
  - left. unfold owners. now rewrite get_notes_unchanged.
Qed.

(** C8. Whatever requests are served, the pairs (identifier, owner) of
    the rows already in the table stay as they are, in place; the pairs
    that appear were each added by a create request, with the caller of
    that request as owner. *)
Theorem owner_assigned_once (rs : list (Request * World)) (st : State) :
  exists added,
    owners (run rs st) = owners st ++ added
    /\ Forall (fun io => exists u b w,
                 In (Create u b, w) rs /\ io = (next_id w, user_id u))
              added.
Proof.
  revert st. induction rs as [ | [r w] rs IH]; intros st; simpl.
  - exists []. rewrite app_nil_r. auto.
  - destruct (IH (snd (handle r w st))) as (added & E & F).
    assert (F' : Forall (fun io => exists u b w',
                           ((r, w) = (Create u b, w') \/ In (Create u b, w') rs)
                           /\ io = (next_id w', user_id u)) added).
    { eapply Forall_impl; [ | exact F ].
      intros io (u & b & w' & Hin & ->). eauto 6. }
    destruct (handle_owners r w st) as [H | (u & b & -> & H)]; rewrite H in E.
    + exists added. auto.
    + exists ((next_id w, user_id u) :: added). split.
      * rewrite E, <- app_assoc. reflexivity.
      * constructor; [ | exact F' ]. exists u, b, w. auto.
Qed.

Lemma NoDup_snoc {A : Type} (l : list A) (a : A) :
  NoDup l -> ~ In a l -> NoDup (l ++ [a]).
Proof.
  induction l as [ | x l IH]; simpl; intros Hnd Hn.
  - constructor; [tauto | constructor].
  - inversion Hnd; subst. constructor.
    + intros Hin. apply in_app_or in Hin. simpl in Hin. intuition congruence.
    + apply IH; tauto.
Qed.

(** The identifiers stay pairwise distinct. *)
Lemma handle_unique_ids (r : Request) (w : World) (st : State) :
  unique_ids st -> unique_ids (snd (handle r w st)).
Proof.
  unfold unique_ids. intros Hnd.
  assert (Hmap : forall s, List.map id (notes s) = List.map fst (owners s)).
  { intros s. unfold owners. rewrite map_map. reflexivity. }
  destruct r as [u b | u i b | u q | u i]; simpl.
  - revert Hnd.
    cbv [create create_try try_catch bind throw_if req_json ret get_title
         get_content note_create record get_notes put_notes].
    destruct b as [[ | t c] | m]; simpl; auto.
    destruct (title_missing t); simpl; auto.
    destruct (title_too_long t); simpl; auto.
    destruct t; simpl; auto.
    destruct (js_or c (VString [])); simpl; auto.
    destruct (existsb _ _) eqn:E; simpl; auto.
    intros Hnd. rewrite map_app. simpl. apply NoDup_snoc; [assumption | ].
    intros Hin. apply in_map_iff in Hin. destruct Hin as (n & Hid & Hin).
    assert (existsb (has_id (next_id w)) (notes st) = true); [ | congruence ].
    apply existsb_exists. exists n. split; [assumption | ].
    unfold has_id. rewrite Hid. apply Ownership.str_eqb_refl.
  - rewrite Hmap, update_owners, <- Hmap. assumption.
  - now rewrite all_notes_unchanged.
  - now rewrite get_notes_unchanged.
Qed.

Lemma run_unique_ids (rs : list (Request * World)) (st : State) :
  unique_ids st -> unique_ids (run rs st).
Proof.
  revert st. induction rs as [ | [r w] rs IH]; intros st H; simpl.
  - assumption.
  - apply IH. now apply handle_unique_ids.
Qed.

End Owners.

(* ================================================================== *)
(** ** Scenarios of the spec (section 8) *)

Module Scenarios.

Local Open Scope Z_scope.

(** A note that was created is returned by get-one with its title and
    content, and [createdAt <= updatedAt]. *)
Example create_then_get :
  let st := snd (create alice
                   (Parsed (BFields (VString (js "T")) (VString (js "C"))))
                   w0 st0) in
  notes st = notes st1
  /\ fst (get alice sample_id st)
     = inr (json (SuccessData (mkView sample_id (js "T") (js "C") 10 10)) 200).
Proof. split; reflexivity. Qed.

(** With 25 notes, page 2 of 10 holds 10 notes, the newest of them
    written at time 15, and the envelope is the expected one. *)
Example second_page_of_three :
  exists data,
    fst (all alice (mkQuery (Some (js "2")) (Some (js "10"))) st25)
    = inr (json (SuccessList data
                   (mkPagination (Num 25) (Num 2) (Num 10) (Num 3) true true))
                200)
    /\ List.length data = 10%nat
    /\ List.map v_updatedAt data = [15; 14; 13; 12; 11; 10; 9; 8; 7; 6].
Proof. eexists. split; [ vm_compute; reflexivity | split; reflexivity ]. Qed.

(** The limit is clamped, not rejected. *)
Example limit_is_clamped :
  parse_limit (mkQuery None (Some (js "1000"))) = Num 100
  /\ parse_limit (mkQuery None (Some (js "0"))) = Num 1
  /\ parse_limit (mkQuery None (Some (js "-5"))) = Num 1
  /\ parse_page (mkQuery (Some (js "-3")) None) = Num 1.
Proof. repeat split; reflexivity. Qed.

End Scenarios.

(* ================================================================== *)
(** ** What the handlers can answer, and what a failure leaves behind *)

Module Outcomes.

Local Open Scope Z_scope.

(** A successful create, step by step. *)
Lemma create_success_inv user b w st resp st' :
  create user b w st = (inr resp, st') ->
  exists t c,
    b = Parsed (BFields (VString t) c)
    /\ title_missing (VString t) = false
    /\ title_too_long (VString t) = false
    /\ defaultable c = true
    /\ existsb (has_id (next_id w)) (notes st) = false
    /\ let n := mkNote (next_id w) t (asString c) (user_id user)
                  (clock w) (clock w) in
       st' = mkState (notes st ++ [n])
               (calls st ++ [CallCreate (VString t) (VString (asString c))
                               (user_id user)])
       /\ resp = json (Data (select n)) 201.
Proof.
  unfold create, try_catch.
  destruct (create_try user b w st) as [[e | r] s] eqn:E; [discriminate | ].
  intros H. inversion H; subst r s; clear H. revert E.
  cbv [create_try bind throw_if req_json ret get_title get_content note_create
       record get_notes put_notes].
  destruct b as [[ | t c] | m]; simpl; try discriminate.
  destruct (title_missing t) eqn:Em; simpl; [discriminate | ].
  destruct (title_too_long t) eqn:El; simpl; [discriminate | ].
  destruct t as [ | | | | t | ]; simpl; try discriminate.
  unfold js_or, defaultable.
  destruct c as [ | | [ | ] | z | cs | ]; simpl;
    try discriminate;
    try (destruct (existsb _ _) eqn:Ex; simpl; [discriminate | ];
         intros H; inversion H; subst; exists t; eexists;
         repeat (split; [reflexivity || eassumption | ]); reflexivity).
  - destruct (z =? 0) eqn:Ez; simpl; [ | discriminate ].
    destruct (existsb _ _) eqn:Ex; simpl; [discriminate | ].
    intros H; inversion H; subst. exists t, (VNumber z). simpl. rewrite Ez.
    repeat (split; [reflexivity || eassumption | ]). reflexivity.
  - destruct cs as [ | x cs]; simpl;
      (destruct (existsb _ _) eqn:Ex; simpl; [discriminate | ]);
      intros H; inversion H; subst; exists t; eexists;
      repeat (split; [reflexivity || eassumption | ]); reflexivity.
Qed.


(** A successful list, step by step. *)
Lemma all_success_inv user q st resp st' :
  all user q st = (inr resp, st') ->
  exists p l,
    parse_page q = Num p /\ parse_limit q = Num l
    /\ 1 <= p /\ 1 <= l <= 100
    /\ notes st' = notes st
    /\ calls st' = calls st
                   ++ [CallFindMany (user_id user) (Num ((p - 1) * l)) (Num l);
                       CallCount (user_id user)]
    /\ let t := Z.of_nat
                  (List.length (filter (owned_by (user_id user)) (notes st))) in
       resp = json (SuccessList
                      (List.map select
                         (firstn (Z.to_nat l)
                            (skipn (Z.to_nat ((p - 1) * l)) (shelf user st))))
                      (mkPagination (Num t) (Num p) (Num l)
                         (Num (ceiling t l)) (p <? ceiling t l) (1 <? p)))
                   200.
Proof.
  intros H. unfold all, try_catch in H.
  destruct (all_try user q st) as [[e | r] s] eqn:E; [discriminate | ].
  inversion H; subst r s; clear H.
  cbv [all_try bind throw_if] in E.
  destruct (parse_page q) as [ | p]; [discriminate | ].
  destruct (parse_limit q) as [ | l]; [discriminate | ].
  cbv [isNaN lt gt orb] in E.
  destruct (p <? 1) eqn:Ep; [discriminate | ].
  destruct (l <? 1) eqn:El; [discriminate | ].
  destruct (100 <? l) eqn:Eh; [discriminate | ].
  apply Z.ltb_ge in Ep, El, Eh.
  exists p, l. repeat (split; [reflexivity || lia | ]).
  cbv [note_findMany note_count record get_notes ret bind mul sub] in E.
  destruct (fits64 _ && fits64 _); [ | cbv [throw] in E; discriminate ].
  cbv [notes calls] in E. rewrite Pagination.Math_ceil_div in E by lia.
  inversion E; subst resp st'; clear E. cbv zeta. simpl notes. simpl calls.
  rewrite <- app_assoc. repeat (split; [reflexivity | ]). reflexivity.
Qed.


(** X3. update and get-one answer 200, 400, 404 or 500, and what they
    let through is always an HTTPException. *)
Theorem update_get_answers (user : User) (i : jsstring) (b : bodyResult)
    (w : World) (st : State) :
  answers (fst (update user i b w st)) [200; 400; 404; 500]
  /\ answers (fst (get user i st)) [200; 400; 404; 500].
Proof.
  split.
  - cbv [update update_try try_catch bind throw_if req_json ret note_findFirst
         record get_notes get_title get_content note_update put_notes].
    destruct b as [body | m]; simpl; [ | tauto ].
    destruct (invalid_id i); simpl; [tauto | ].
    destruct (find _ _); simpl; [ | tauto ].
    destruct body as [ | t c]; simpl; [tauto | ].
    destruct (column t); simpl; [ | tauto ].
    destruct (column c); simpl; [ | tauto ].
    destruct (update_row _ _ _) as [[n' ns'] | ]; simpl; tauto.
  - cbv [get get_try try_catch bind throw_if note_findFirst record get_notes
         ret].
    destruct (invalid_id i); simpl; [tauto | ].
    destruct (find _ _); simpl; tauto.
Qed.

(** X4. A request that fails leaves the table as it was. *)
Theorem failure_leaves_table (r : Request) (w : World) (st : State)
    (e : exn) (st' : State) :
  handle r w st = (inl e, st') -> notes st' = notes st.
Proof.
  destruct r as [u b | u i b | u q | u i]; simpl; intros H.
  - revert H.
    cbv [create create_try try_catch bind throw_if req_json ret get_title
         get_content note_create record get_notes put_notes].
    destruct b as [[ | t c] | m]; simpl; try (now inversion 1).
    destruct (title_missing t); simpl; [now inversion 1 | ].
    destruct (title_too_long t); simpl; [now inversion 1 | ].
    destruct t; simpl; try (now inversion 1).
    destruct (js_or c (VString [])); simpl; try (now inversion 1).
    destruct (existsb _ _); simpl; now inversion 1.
  - revert H.
    cbv [update update_try try_catch bind throw_if req_json ret note_findFirst
         record get_notes get_title get_content note_update put_notes].
    destruct b as [body | m]; simpl; [ | now inversion 1 ].
    destruct (invalid_id i); simpl; [now inversion 1 | ].
    destruct (find _ _); simpl; [ | now inversion 1 ].
    destruct body as [ | t c]; simpl; [now inversion 1 | ].
    destruct (column t); simpl; [ | now inversion 1 ].
    destruct (column c); simpl; [ | now inversion 1 ].
    destruct (update_row _ _ _) as [[n' ns'] | ]; simpl; now inversion 1.
  - rewrite <- (Owners.all_notes_unchanged u q st). now rewrite H.
  - rewrite <- (Owners.get_notes_unchanged u i st). now rewrite H.
Qed.

Lemma failure_leaves_table_witness :
  notes (snd (update bob sample_id
                (Parsed (BFields (VString (js "x")) VUndefined)) w1 st1))
  = notes st1.
Proof.
  exact (failure_leaves_table
           (Update bob sample_id (Parsed (BFields (VString (js "x")) VUndefined)))
           w1 st1 (HTTPException 404 "Note not found") _ eq_refl).
Defined.

(** X5. get-one and list only read: the table is what it was, and every
    call they make to the store is a read of the caller's own rows. *)
Theorem reads_only (user : User) (i : jsstring) (q : Query) (st : State) :
  (notes (snd (get user i st)) = notes st
   /\ exists new, calls (snd (get user i st)) = calls st ++ new
                   /\ Forall (reads_of (user_id user)) new)
  /\ (notes (snd (all user q st)) = notes st
      /\ exists new, calls (snd (all user q st)) = calls st ++ new
                      /\ Forall (reads_of (user_id user)) new).
Proof.
  split; split.
  - apply Owners.get_notes_unchanged.
  - cbv [get get_try try_catch bind throw_if note_findFirst record get_notes
         ret].
    destruct (invalid_id i); simpl.
    + exists []. rewrite app_nil_r. auto.
    + exists [CallFindFirst i (user_id user)].
      split; [ destruct (find _ _); reflexivity | ].
      repeat constructor.
  - apply Owners.all_notes_unchanged.
  - cbv [all all_try try_catch bind throw_if note_findMany note_count record
         get_notes ret].
    destruct (_ || _); simpl.
    + exists []. rewrite app_nil_r. auto.
    + destruct (mul _ _); simpl;
        [ | destruct (parse_limit q); simpl;
            [ | destruct (fits64 _ && fits64 _); simpl ] ];
        (eexists; split;
         [ rewrite <- ?app_assoc; reflexivity | repeat constructor ]).
Qed.

End Outcomes.

(* ================================================================== *)
(** ** Creating a note *)

Module Creation.

Local Open Scope Z_scope.

Lemma trimStart_nil (s : jsstring) : trimStart s = [] <-> blank s = true.
Proof.
  unfold blank. induction s as [ | c s IH]; simpl; [tauto | ].
  destruct (isWhiteSpace c); simpl; [exact IH | ].
  split; discriminate.
Qed.

Lemma trimStart_head (s : jsstring) (x : codeunit) (r : jsstring) :
  trimStart s = x :: r -> isWhiteSpace x = false.
Proof.
  induction s as [ | c s IH]; simpl; [discriminate | ].
  destruct (isWhiteSpace c) eqn:E; [exact IH | ].
  intros H. inversion H; subst. exact E.
Qed.

Lemma blank_rev (s : jsstring) : blank (rev s) = blank s.
Proof.
  unfold blank. induction s as [ | c s IH]; simpl; [reflexivity | ].
  rewrite forallb_app, IH. simpl. rewrite andb_true_r. apply andb_comm.
Qed.

(** [s.trim()] is empty exactly when [s] is made of white space. *)
Lemma trim_nil (s : jsstring) : trim s = [] <-> blank s = true.
Proof.
  unfold trim, trimEnd. rewrite <- trimStart_nil. split.
  - intros H. apply (f_equal (@rev codeunit)) in H.
    rewrite rev_involutive in H. simpl in H.
    apply trimStart_nil in H. rewrite blank_rev in H.
    destruct (trimStart s) as [ | x r] eqn:E; [reflexivity | ].
    apply trimStart_head in E. unfold blank in H. simpl in H.
    rewrite E in H. discriminate.
  - intros ->. reflexivity.
Qed.

(** The first check of create, on a string: the title is blank. *)
Lemma title_missing_blank (s : jsstring) :
  title_missing (VString s) = blank s.
Proof.
  unfold title_missing. simpl. rewrite negb_involutive, orb_false_r.
  apply eq_true_iff_eq. rewrite orb_true_iff, Z.eqb_eq, <- trim_nil.
  unfold len. split.
  - intros [H | H].
    + destruct s; [reflexivity | discriminate].
    + destruct (trim s); [reflexivity | discriminate].
  - intros ->. right. reflexivity.
Qed.

(** X6. create succeeds exactly when the body is an object (or another
    non-null value) whose title is a string that is not blank and has at
    most 255 code units, whose content is a string or falsy, and the
    identifier the store picks is not taken. *)
Theorem create_succeeds_iff (user : User) (b : bodyResult) (w : World)
    (st : State) :
  (exists resp st', create user b w st = (inr resp, st'))
  <-> exists t c,
        b = Parsed (BFields (VString t) c)
        /\ blank t = false /\ len t <= 255 /\ defaultable c = true
        /\ existsb (has_id (next_id w)) (notes st) = false.
Proof.
  split.
  - intros (resp & st' & H). apply Outcomes.create_success_inv in H.
    destruct H as (t & c & -> & Hm & Hl & Hc & Hx & _).
    exists t, c. rewrite title_missing_blank in Hm.
    unfold title_too_long in Hl. simpl in Hl. apply Z.ltb_ge in Hl. auto.
  - intros (t & c & -> & Hb & Hl & Hc & Hx).
    cbv [create create_try try_catch bind throw_if req_json ret get_title
         get_content note_create record get_notes put_notes].
    rewrite title_missing_blank, Hb. cbv beta iota.
    change (title_too_long (VString t)) with (255 <? len t).
    apply Z.ltb_ge in Hl. rewrite Hl. cbv beta iota.
    unfold defaultable in Hc. unfold js_or.
    destruct (truthy c) eqn:Et; simpl in Hc.
    + destruct c; try discriminate. simpl. rewrite Hx. simpl. eauto.
    + simpl. rewrite Hx. simpl. eauto.
Qed.

Lemma create_succeeds_iff_witness :
  exists resp st',
    create alice (Parsed (BFields (VString (js "T")) VUndefined)) w0 st0
    = (inr resp, st').
Proof.
  apply (proj2 (create_succeeds_iff alice
                  (Parsed (BFields (VString (js "T")) VUndefined)) w0 st0)).
  exists (js "T"), VUndefined. repeat split; try reflexivity.
  vm_compute. discriminate.
Defined.

(** X7. What a successful create stores and returns: one new row at the
    end of the table, with the title exactly as it was sent (it is not
    trimmed), the content sent or the empty string, the caller as owner
    and both timestamps equal; the response is a 201 carrying this row. *)
Theorem create_stores (user : User) (t : jsstring) (c : jsvalue) (w : World)
    (st st' : State) (resp : Response) :
  create user (Parsed (BFields (VString t) c)) w st = (inr resp, st') ->
  let n := mkNote (next_id w) t (asString c) (user_id user)
             (clock w) (clock w) in
  notes st' = notes st ++ [n]
  /\ resp = json (Data (select n)) 201
  /\ (truthy c = false -> content n = []).
Proof.
  intros H. apply Outcomes.create_success_inv in H.
  destruct H as (t0 & c0 & E & _ & _ & Hc & _ & -> & ->).
  inversion E; subst t0 c0. simpl. repeat split.
  intros Ht. destruct c; simpl in *; try reflexivity.
  destruct s; [reflexivity | discriminate].
Qed.

Lemma create_stores_witness :
  notes (snd (create alice
                (Parsed (BFields (VString (js " T ")) VNull)) w0 st0))
  = [mkNote sample_id (js " T ") [] (js "alice") 10 10].
Proof.
  exact (proj1 (create_stores alice (js " T ") VNull w0 st0 _ _ eq_refl)).
Defined.

End Creation.

(* ================================================================== *)
(** ** Reading and changing one's own note *)

Module OwnNotes.

Local Open Scope Z_scope.

(** Looking up one's own note finds it. *)
Lemma own_lookup (st : State) (n : Note) (u : jsstring) :
  unique_ids st -> In n (notes st) -> userId n = u ->
  find (fun m => has_id (id n) m && owned_by u m) (notes st) = Some n.
Proof.
  intros Hnd Hn Hu.
  destruct (find _ (notes st)) as [m | ] eqn:E.
  - apply find_some in E. destruct E as [Hm E].
    apply andb_prop in E. destruct E as [Ei _].
    apply Ownership.str_eqb_eq in Ei.
    f_equal. eapply Ownership.unique_row; eauto.
  - apply (find_none _ _ E) in Hn. unfold has_id, owned_by in Hn.
    rewrite Hu, !Ownership.str_eqb_refl in Hn. discriminate.
Qed.

(** What a lookup returns is a row of the table with this identifier
    and this owner. *)
Lemma lookup_sound (ns : list Note) (i u : jsstring) (n : Note) :
  find (fun m => has_id i m && owned_by u m) ns = Some n ->
  In n ns /\ id n = i /\ userId n = u.
Proof.
  intros E. apply find_some in E. destruct E as [Hn E].
  apply andb_prop in E. destruct E as [Ei Eo].
  apply Ownership.str_eqb_eq in Ei. apply Ownership.str_eqb_eq in Eo. auto.
Qed.

(** X8. When get-one answers with a note, the identifier has the UUID-v4
    shape and the note is a row of the table carrying this identifier
    and owned by the caller; the answer is a 200 and one lookup was made. *)
Theorem get_returns_own_note (user : User) (i : jsstring) (st st' : State)
    (resp : Response) :
  get user i st = (inr resp, st') ->
  uuid_v4_shape i
  /\ exists n, In n (notes st) /\ id n = i /\ userId n = user_id user
               /\ resp = json (SuccessData (select n)) 200
               /\ st' = mkState (notes st)
                          (calls st ++ [CallFindFirst i (user_id user)]).
Proof.
  cbv [get get_try try_catch bind throw_if note_findFirst record get_notes ret].
  destruct (invalid_id i) eqn:Ev; simpl; [discriminate | ].
  destruct (find _ _) as [n | ] eqn:E; simpl; [ | discriminate ].
  intros H. inversion H; subst. split; [now apply invalid_id_shape | ].
  apply lookup_sound in E. destruct E as (Hn & Hi & Hu).
  exists n. auto.
Qed.

Lemma get_returns_own_note_witness :
  uuid_v4_shape sample_id
  /\ exists n, In n (notes st1) /\ id n = sample_id
               /\ userId n = user_id alice.
Proof.
  destruct (get_returns_own_note alice sample_id st1 _ _ eq_refl)
    as (Hs & n & Hn & Hi & Hu & _).
  split; [exact Hs | exists n; auto].
Defined.

(** get-one on a row that the lookup finds. *)
Lemma get_when_found user i st n :
  invalid_id i = false ->
  find (fun m => has_id i m && owned_by (user_id user) m) (notes st) = Some n ->
  get user i st
  = (inr (json (SuccessData (select n)) 200),
     mkState (notes st) (calls st ++ [CallFindFirst i (user_id user)])).
Proof.
  intros Hs Hf.
  cbv [get get_try try_catch bind throw_if note_findFirst record get_notes ret].
  rewrite Hs. simpl. rewrite Hf. reflexivity.
Qed.

(** X9. The owner of a note whose identifier has the UUID-v4 shape gets
    it from get-one: a 200 carrying the row, for one lookup and no change
    to the table. *)
Theorem get_finds_own_note (user : User) (n : Note) (st : State) :
  unique_ids st -> In n (notes st) -> userId n = user_id user ->
  uuid_v4_shape (id n) ->
  get user (id n) st
  = (inr (json (SuccessData (select n)) 200),
     mkState (notes st) (calls st ++ [CallFindFirst (id n) (user_id user)])).
Proof.
  intros Hnd Hn Hu Hs. apply invalid_id_shape in Hs.
  apply get_when_found; [exact Hs | ].
  exact (own_lookup st n (user_id user) Hnd Hn Hu).
Qed.

Lemma get_finds_own_note_witness :
  fst (get alice sample_id st1)
  = inr (json (SuccessData (mkView sample_id (js "T") (js "C") 10 10)) 200).
Proof.
  refine (f_equal fst
            (get_finds_own_note alice
               (mkNote sample_id (js "T") (js "C") (js "alice") 10 10) st1
               _ _ _ _)).
  - repeat constructor. simpl. tauto.
  - simpl. auto.
  - reflexivity.
  - apply invalid_id_shape. vm_compute. reflexivity.
Defined.

(** X10. A note that was just created can be read back: when create
    succeeds and the identifier the store picked has the UUID-v4 shape,
    get-one by the same caller on that identifier answers 200 with the
    very note the 201 carried, whose title and content are those sent. *)
Theorem created_note_is_readable (user : User) (t : jsstring) (c : jsvalue)
    (w : World) (st st' : State) (resp : Response) :
  unique_ids st -> uuid_v4_shape (next_id w) ->
  create user (Parsed (BFields (VString t) c)) w st = (inr resp, st') ->
  exists v,
    resp = json (Data v) 201
    /\ fst (get user (next_id w) st') = inr (json (SuccessData v) 200)
    /\ v_id v = next_id w /\ v_title v = t /\ v_content v = asString c
    /\ v_createdAt v <= v_updatedAt v.
Proof.
  intros Hnd Hs H.
  assert (Hnd' : unique_ids st').
  { pose proof (Owners.handle_unique_ids
                  (Create user (Parsed (BFields (VString t) c))) w st Hnd) as U.
    simpl in U. now rewrite H in U. }
  apply Outcomes.create_success_inv in H.
  destruct H as (t0 & c0 & E & _ & _ & _ & _ & Hst & ->).
  inversion E; subst t0 c0.
  set (n := mkNote (next_id w) t (asString c) (user_id user) (clock w) (clock w))
    in *.
  assert (Hn : In n (notes st'))
    by (rewrite Hst; simpl; apply in_or_app; right; simpl; auto).
  exists (select n). split; [reflexivity | ].
  split; [ | simpl; repeat split; lia ].
  change (next_id w) with (id n).
  rewrite (get_when_found user (id n) st' n); [reflexivity | | ].
  - now apply invalid_id_shape.
  - now apply own_lookup.
Qed.

Lemma created_note_is_readable_witness :
  exists v,
    fst (get alice sample_id
           (snd (create alice
                   (Parsed (BFields (VString (js "T")) (VString (js "C"))))
                   w0 st0)))
    = inr (json (SuccessData v) 200)
    /\ v_title v = js "T" /\ v_content v = js "C".
Proof.
  assert (Hs : uuid_v4_shape (next_id w0))
    by (apply invalid_id_shape; vm_compute; reflexivity).
  assert (Hnd : unique_ids st0) by constructor.
  destruct (created_note_is_readable alice (js "T") (VString (js "C")) w0 st0 _ _
              Hnd Hs eq_refl)
    as (v & _ & Hg & _ & Ht & Hc & _).
  exists v. auto.
Defined.

End OwnNotes.

(* ================================================================== *)
(** ** Updating a note *)

Module Updating.

Local Open Scope Z_scope.

Lemma find_exists {A : Type} (p : A -> bool) (l : list A) (x : A) :
  In x l -> p x = true -> exists y, find p l = Some y.
Proof.
  intros Hx Hp. destruct (find p l) as [y | ] eqn:E; [eauto | ].
  apply (find_none _ _ E) in Hx. congruence.
Qed.

Lemma update_row_some (i : jsstring) (f : Note -> Note) (ns : list Note)
    (n : Note) :
  In n ns -> has_id i n = true ->
  exists n' ns', update_row i f ns = Some (n', ns').
Proof.
  induction ns as [ | x ns IH]; simpl; [contradiction | ].
  intros Hn Hi. destruct (has_id i x) eqn:E; [eauto | ].
  destruct Hn as [-> | Hn]; [congruence | ].
  destruct (IH Hn Hi) as (n' & ns' & ->). eauto.
Qed.

(** The rows another identifier designates are out of reach of
    [update_row], and no row is added or removed. *)
Lemma update_row_other (i : jsstring) (f : Note -> Note) :
  (forall n, id (f n) = id n) ->
  forall ns n' ns',
    update_row i f ns = Some (n', ns') ->
    List.length ns' = List.length ns
    /\ forall j, j <> i -> find (has_id j) ns' = find (has_id j) ns.
Proof.
  intros Hid. induction ns as [ | x ns IH]; intros n' ns' H; simpl in H.
  - discriminate.
  - destruct (has_id i x) eqn:E.
    + inversion H; subst. split; [reflexivity | ].
      intros j Hj. simpl. unfold has_id in *. rewrite Hid.
      apply Ownership.str_eqb_eq in E.
      destruct (str_eqb (id x) j) eqn:Ej; [ | reflexivity ].
      apply Ownership.str_eqb_eq in Ej. congruence.
    + destruct (update_row i f ns) as [[m ms] | ] eqn:U; [ | discriminate ].
      inversion H; subst. destruct (IH _ _ eq_refl) as [Hl Hf].
      split; [simpl; congruence | ].
      intros j Hj. simpl. now rewrite (Hf j Hj).
Qed.

(** A successful update, with the lookup that allowed it. *)
Lemma update_success_lookup user i t c w st resp st' :
  update user i (Parsed (BFields t c)) w st = (inr resp, st') ->
  invalid_id i = false
  /\ (exists n, find (fun m => has_id i m && owned_by (user_id user) m)
                  (notes st) = Some n)
  /\ calls st' = calls st ++ [CallFindFirst i (user_id user); CallUpdate i t c].
Proof.
  intros H. unfold update, try_catch in H.
  destruct (update_try _ _ _ _ _) as [[e | r] s] eqn:E.
  - destruct (isHTTPException e); discriminate.
  - inversion H; subst r s; clear H.
    cbv [update_try bind throw_if req_json ret note_findFirst record
         get_notes get_title get_content note_update put_notes] in E.
    destruct (invalid_id i); [discriminate | ].
    cbv [notes calls] in E.
    destruct (find _ _) as [n | ]; [ | discriminate ].
    destruct (column t) as [t' | ]; [ | discriminate ].
    destruct (column c) as [c' | ]; [ | discriminate ].
    destruct (update_row _ _ _) as [[n' ns'] | ] eqn:U; [ | discriminate ].
    inversion E; subst resp st'; clear E. simpl.
    rewrite <- app_assoc. eauto.
Qed.

(** X11. An update that succeeds went through the ownership lookup
    first, and changed the caller's own row only: the row the identifier
    designates belongs to the caller, every other identifier designates
    the row it did before, and the table has as many rows as before. *)
Theorem update_touches_own_row_only (user : User) (i : jsstring)
    (t c : jsvalue) (w : World) (st st' : State) (resp : Response) :
  unique_ids st ->
  update user i (Parsed (BFields t c)) w st = (inr resp, st') ->
  uuid_v4_shape i
  /\ (exists n, row i st = Some n /\ userId n = user_id user)
  /\ (forall j, j <> i -> row j st' = row j st)
  /\ List.length (notes st') = List.length (notes st)
  /\ calls st' = calls st ++ [CallFindFirst i (user_id user); CallUpdate i t c].
Proof.
  intros Hnd H.
  destruct (update_success_lookup _ _ _ _ _ _ _ _ H) as (Hv & (m & Hm) & Hc).
  apply Mutation.update_success in H.
  destruct H as (t' & c' & n' & _ & _ & U & _).
  split; [now apply invalid_id_shape | ].
  destruct (update_row_other i (patch t' c' (clock w)) (fun _ => eq_refl)
              _ _ _ U) as [Hl Ho].
  apply Mutation.update_row_row in U; [ | reflexivity ].
  destruct U as (n & Hn & _ & _).
  apply OwnNotes.lookup_sound in Hm. destruct Hm as (Hin & Hi & Hu).
  repeat split; auto.
  exists n. split; [exact Hn | ].
  apply find_some in Hn. destruct Hn as [Hn Hid].
  apply Ownership.str_eqb_eq in Hid.
  assert (m = n) by (eapply Ownership.unique_row; eauto; congruence).
  congruence.
Qed.

Lemma update_touches_own_row_only_witness :
  exists n, row sample_id st1 = Some n /\ userId n = user_id alice.
Proof.
  assert (Hnd : unique_ids st1) by (repeat constructor; simpl; tauto).
  exact (proj1 (proj2 (update_touches_own_row_only alice sample_id
                         (VString (js "new")) VUndefined w1 st1 _ _
                         Hnd eq_refl))).
Defined.

(** X12. The owner of a note whose identifier has the UUID-v4 shape can
    update it: with a title and a content that are each a string or
    absent, update answers 200. *)
Theorem update_succeeds_for_owner (user : User) (n : Note) (t c : jsvalue)
    (w : World) (st : State) :
  In n (notes st) -> userId n = user_id user -> uuid_v4_shape (id n) ->
  writable t = true -> writable c = true ->
  exists resp st',
    update user (id n) (Parsed (BFields t c)) w st = (inr resp, st')
    /\ status resp = 200.
Proof.
  intros Hn Hu Hs Ht Hc. apply invalid_id_shape in Hs.
  assert (Hid : has_id (id n) n = true) by apply Ownership.str_eqb_refl.
  destruct (find_exists
              (fun m => has_id (id n) m && owned_by (user_id user) m)
              (notes st) n Hn) as (m & Hm).
  { rewrite Hid. unfold owned_by. rewrite Hu. apply Ownership.str_eqb_refl. }
  assert (exists t', column t = Some t') as (t' & Et)
    by (destruct t; try discriminate; simpl; eauto).
  assert (exists c', column c = Some c') as (c' & Ec)
    by (destruct c; try discriminate; simpl; eauto).
  destruct (update_row_some (id n) (patch t' c' (clock w)) (notes st) n Hn Hid)
    as (n' & ns' & U).
  cbv [update update_try try_catch bind throw_if req_json ret note_findFirst
       record get_notes get_title get_content note_update put_notes].
  rewrite Hs. simpl. rewrite Hm. simpl. rewrite Et, Ec. simpl. rewrite U.
  simpl. eauto.
Qed.

Lemma update_succeeds_for_owner_witness :
  exists resp st',
    update alice sample_id (Parsed (BFields VUndefined (VString (js "x"))))
      w1 st1 = (inr resp, st')
    /\ status resp = 200.
Proof.
  apply (update_succeeds_for_owner alice
           (mkNote sample_id (js "T") (js "C") (js "alice") 10 10)
           VUndefined (VString (js "x")) w1 st1).
  - simpl. auto.
  - reflexivity.
  - apply invalid_id_shape. vm_compute. reflexivity.
  - reflexivity.
  - reflexivity.
Defined.

End Updating.

(* ================================================================== *)
(** ** Listing notes page by page *)

Module Paging.

Local Open Scope Z_scope.

(** *** The order of a list *)

Lemma insert_desc_length (n : Note) (l : list Note) :
  List.length (insert_desc n l) = S (List.length l).
Proof.
  induction l as [ | m l IH]; simpl; [reflexivity | ].
  destruct (updatedAt m <? updatedAt n); simpl; congruence.
Qed.

Lemma order_desc_length (l : list Note) :
  List.length (order_desc l) = List.length l.
Proof.
  induction l as [ | n l IH]; simpl; [reflexivity | ].
  rewrite insert_desc_length. congruence.
Qed.

Lemma insert_desc_In (n x : Note) (l : list Note) :
  In x (insert_desc n l) <-> x = n \/ In x l.
Proof.
  induction l as [ | m l IH]; simpl; [intuition | ].
  destruct (updatedAt m <? updatedAt n); simpl; [intuition | ].
  rewrite IH. intuition.
Qed.

Lemma order_desc_In (x : Note) (l : list Note) :
  In x (order_desc l) <-> In x l.
Proof.
  induction l as [ | n l IH]; simpl; [tauto | ].
  rewrite insert_desc_In, IH. intuition.
Qed.

Lemma insert_desc_sorted (n : Note) (l : list Note) :
  StronglySorted (fun a b => updatedAt b <= updatedAt a) l ->
  StronglySorted (fun a b => updatedAt b <= updatedAt a) (insert_desc n l).
Proof.
  induction 1 as [ | m l Hs IH Hf]; simpl.
  - repeat constructor.
  - destruct (updatedAt m <? updatedAt n) eqn:E.
    + apply Z.ltb_lt in E. constructor; [now constructor | ].
      constructor; [lia | ].
      rewrite Forall_forall in *. intros x Hx. specialize (Hf x Hx). lia.
    + apply Z.ltb_ge in E. constructor; [exact IH | ].
      rewrite Forall_forall in *. intros x Hx.
      apply insert_desc_In in Hx. destruct Hx as [-> | Hx]; auto.
Qed.

Lemma order_desc_sorted (l : list Note) :
  StronglySorted (fun a b => updatedAt b <= updatedAt a) (order_desc l).
Proof.
  induction l as [ | n l IH]; simpl; [constructor | ].
  now apply insert_desc_sorted.
Qed.

Lemma sorted_skipn {A : Type} (R : A -> A -> Prop) (k : nat) (l : list A) :
  StronglySorted R l -> StronglySorted R (skipn k l).
Proof.
  revert l. induction k as [ | k IH]; intros l H; simpl; [exact H | ].
  destruct l as [ | x l]; [constructor | ].
  apply IH. now inversion H.
Qed.

Lemma sorted_firstn {A : Type} (R : A -> A -> Prop) (k : nat) (l : list A) :
  StronglySorted R l -> StronglySorted R (firstn k l).
Proof.
  revert l. induction k as [ | k IH]; intros l H; simpl; [constructor | ].
  destruct l as [ | x l]; [constructor | ].
  inversion H as [ | ? ? Hs Hf]; subst. constructor; [now apply IH | ].
  rewrite Forall_forall in *. intros y Hy. apply Hf.
  rewrite <- (firstn_skipn k l). apply in_or_app. now left.
Qed.

Lemma sorted_select (l : list Note) :
  StronglySorted (fun a b => updatedAt b <= updatedAt a) l ->
  newest_first (List.map select l).
Proof.
  unfold newest_first. induction 1 as [ | n l Hs IH Hf]; simpl; constructor.
  - exact IH.
  - rewrite Forall_map. exact Hf.
Qed.

(** The shelf of a caller holds this caller's rows, all of them. *)
Lemma shelf_In (u : User) (st : State) (n : Note) :
  In n (shelf u st) <-> In n (notes st) /\ userId n = user_id u.
Proof.
  unfold shelf. rewrite order_desc_In, filter_In. unfold owned_by.
  now rewrite Ownership.str_eqb_eq.
Qed.

Lemma shelf_length (u : User) (st : State) :
  List.length (shelf u st)
  = List.length (filter (owned_by (user_id u)) (notes st)).
Proof. apply order_desc_length. Qed.

(** *** Which queries are accepted *)



(** A list with a page and a limit that were read. *)
Lemma all_computes user q st p l :
  parse_page q = Num p -> parse_limit q = Num l -> 1 <= p -> 1 <= l <= 100 ->
  exact ((p - 1) * l) ->
  let t := Z.of_nat (List.length (shelf user st)) in
  all user q st
  = (inr (json (SuccessList
                  (List.map select
                     (firstn (Z.to_nat l)
                        (skipn (Z.to_nat ((p - 1) * l)) (shelf user st))))
                  (mkPagination (Num t) (Num p) (Num l) (Num (ceiling t l))
                     (p <? ceiling t l) (1 <? p)))
               200),
     mkState (notes st)
       (calls st ++ [CallFindMany (user_id user) (Num ((p - 1) * l)) (Num l);
                     CallCount (user_id user)])).
Proof.
  intros Hp Hl Hp1 Hl1 Xs. cbv zeta. rewrite shelf_length.
  cbv [all all_try try_catch bind throw_if]. rewrite Hp, Hl.
  cbv [isNaN lt gt orb].
  destruct (p <? 1) eqn:E1; [apply Z.ltb_lt in E1; lia | ].
  destruct (l <? 1) eqn:E2; [apply Z.ltb_lt in E2; lia | ].
  destruct (100 <? l) eqn:E3; [apply Z.ltb_lt in E3; lia | ].
  cbv [note_findMany note_count record get_notes ret bind mul sub].
  rewrite (Pagination.fits64_exact _ Xs).
  rewrite (Pagination.fits64_exact l) by (unfold exact; lia).
  cbv [notes calls andb]. rewrite Pagination.Math_ceil_div by lia.
  rewrite <- app_assoc. reflexivity.
Qed.



(** X14. The notes of a list response are rows of the caller and of no
    one else, most recently updated first, and at most 100 of them (at
    most the limit that was read). *)
Theorem list_page_contents (user : User) (q : Query) (st st' : State)
    (resp : Response) :
  all user q st = (inr resp, st') ->
  let data := page_data (inr resp) in
  newest_first data
  /\ Forall (fun v => exists n, In n (notes st)
                                /\ userId n = user_id user /\ v = select n)
            data
  /\ exists l, parse_limit q = Num l
               /\ Z.of_nat (List.length data) <= l <= 100.
Proof.
  intros H. apply Outcomes.all_success_inv in H.
  destruct H as (p & l & Hp & Hl & Hp1 & Hl1 & _ & _ & ->). simpl.
  split; [ | split ].
  - apply sorted_select, sorted_firstn, sorted_skipn, order_desc_sorted.
  - rewrite Forall_map, Forall_forall. intros n Hn.
    exists n. split; [ | split ]; try reflexivity;
      apply (shelf_In user st n);
      rewrite <- (firstn_skipn (Z.to_nat ((p - 1) * l)) (shelf user st));
      apply in_or_app; right;
      rewrite <- (firstn_skipn (Z.to_nat l) (skipn _ _));
      apply in_or_app; left; exact Hn.
  - exists l. split; [exact Hl | ].
    rewrite length_map, length_firstn. lia.
Qed.

Lemma list_page_contents_witness :
  newest_first
    (page_data (fst (all alice (mkQuery (Some (js "2")) (Some (js "10"))) st25))).
Proof.
  exact (proj1 (list_page_contents alice
                  (mkQuery (Some (js "2")) (Some (js "10"))) st25 _ _ eq_refl)).
Defined.

Lemma next_page_remains (p l t : Z) :
  0 < l -> (p <? ceiling t l) = (p * l <? t).
Proof.
  intros Hl. pose proof (Pagination.ceiling_bounds t l Hl) as B.
  destruct (Z.ltb_spec p (ceiling t l)); destruct (Z.ltb_spec (p * l) t);
    try reflexivity; nia.
Qed.

(** X15. The size of a page and the meaning of the two flags: with [t]
    notes of the caller, page [p] of limit [l] holds
    [min l (max 0 (t - (p - 1) * l))] notes, so a page past the last one
    is empty; [hasNextPage] is true exactly when notes remain after this
    page ([p * l < t]) and [hasPreviousPage] exactly when [p > 1]. *)
Theorem list_page_size (user : User) (q : Query) (st st' : State)
    (resp : Response) :
  all user q st = (inr resp, st') ->
  exists p l data pg,
    resp = json (SuccessList data pg) 200
    /\ parse_page q = Num p /\ parse_limit q = Num l
    /\ let t := Z.of_nat (List.length (shelf user st)) in
       total pg = Num t
       /\ Z.of_nat (List.length data) = Z.min l (Z.max 0 (t - (p - 1) * l))
       /\ hasNextPage pg = (p * l <? t)
       /\ hasPreviousPage pg = (1 <? p).
Proof.
  intros H. apply Outcomes.all_success_inv in H.
  destruct H as (p & l & Hp & Hl & Hp1 & Hl1 & _ & _ & ->).
  do 4 eexists. split; [reflexivity | ].
  split; [exact Hp | split; [exact Hl | ] ].
  cbv zeta. rewrite <- shelf_length. simpl. repeat split.
  - rewrite length_map, length_firstn, length_skipn.
    assert (0 <= (p - 1) * l) by nia.
    set (s := (p - 1) * l) in *. lia.
  - apply next_page_remains. lia.
Qed.

Lemma list_page_size_witness :
  exists (p l : Z) (data : list NoteView) (pg : Pagination),
    parse_page (mkQuery (Some (js "3")) (Some (js "10"))) = Num p
    /\ parse_limit (mkQuery (Some (js "3")) (Some (js "10"))) = Num l
    /\ Z.of_nat (List.length data)
       = Z.min l (Z.max 0 (Z.of_nat (List.length (shelf alice st25))
                           - (p - 1) * l))
    /\ hasNextPage pg = (p * l <? Z.of_nat (List.length (shelf alice st25))).
Proof.
  destruct (list_page_size alice (mkQuery (Some (js "3")) (Some (js "10")))
              st25 _ _ eq_refl)
    as (p & l & data & pg & _ & Hp & Hl & _ & Hd & Hn & _).
  exists p, l, data, pg. auto.
Defined.

(** *** Pages put end to end *)

Lemma firstn_add {A : Type} (a b : nat) (l : list A) :
  firstn (a + b) l = firstn a l ++ firstn b (skipn a l).
Proof.
  revert l. induction a as [ | a IH]; intros l; simpl; [reflexivity | ].
  destruct l as [ | x l]; simpl; [now rewrite firstn_nil | ].
  now rewrite IH.
Qed.

Lemma pages_from (user : User) (st : State) (l : Z) (qs : list Query) :
  1 <= l <= 100 ->
  forall a : nat,
    exact (Z.of_nat (a + List.length qs) * l) ->
    (forall k q, nth_error qs k = Some q ->
                 parse_page q = Num (Z.of_nat (a + k) + 1)
                 /\ parse_limit q = Num l) ->
    List.concat (List.map (fun q => page_data (fst (all user q st))) qs)
    = List.map select
        (firstn (List.length qs * Z.to_nat l)
           (skipn (a * Z.to_nat l) (shelf user st))).
Proof.
  intros Hl. induction qs as [ | q qs IH]; intros a X H; simpl.
  - reflexivity.
  - destruct (H 0%nat q eq_refl) as [Hp Hq]. simpl List.length in X.
    assert (Xa : exact ((Z.of_nat (a + 0) + 1 - 1) * l))
      by (unfold exact in *; nia).
    rewrite (all_computes user q st _ l Hp Hq) by (lia || exact Xa). simpl.
    rewrite (IH (S a)).
    + rewrite firstn_add, map_app. f_equal.
      * do 3 f_equal. rewrite Nat.add_0_r.
        replace (Z.of_nat a + 1 - 1) with (Z.of_nat a) by lia.
        rewrite Z2Nat.inj_mul by lia. now rewrite Nat2Z.id.
      * rewrite skipn_skipn. reflexivity.
    + replace (S a + List.length qs)%nat with (a + S (List.length qs))%nat
        by lia. exact X.
    + intros k q' Hk. specialize (H (S k) q' Hk).
      replace (S a + k)%nat with (a + S k)%nat by lia. exact H.
Qed.

(** *** The order of the list when no two times are equal *)

Lemma insert_desc_perm (n : Note) (l : list Note) :
  Permutation (insert_desc n l) (n :: l).
Proof.
  induction l as [ | m l IH]; simpl; [reflexivity | ].
  destruct (updatedAt m <? updatedAt n); [reflexivity | ].
  rewrite IH. apply perm_swap.
Qed.

Lemma order_desc_perm (l : list Note) : Permutation (order_desc l) l.
Proof.
  induction l as [ | n l IH]; simpl; [reflexivity | ].
  rewrite insert_desc_perm. now constructor.
Qed.

Lemma same_time_same_note (l : list Note) (a b : Note) :
  NoDup (List.map updatedAt l) -> In a l -> In b l ->
  updatedAt a = updatedAt b -> a = b.
Proof.
  induction l as [ | x l IH]; simpl; [contradiction | ].
  intros Hnd Ha Hb E. inversion Hnd as [ | ? ? Hx Hnd']; subst.
  destruct Ha as [-> | Ha]; destruct Hb as [-> | Hb]; auto.
  - exfalso. apply Hx. rewrite E. now apply in_map.
  - exfalso. apply Hx. rewrite <- E. now apply in_map.
Qed.

(** Two arrangements of the same notes, both newest first, are the same
    list when no two notes have the same time. *)
Lemma newest_first_unique (l1 : list Note) :
  NoDup (List.map updatedAt l1) ->
  forall l2,
    Permutation l1 l2 ->
    StronglySorted (fun a b => updatedAt b <= updatedAt a) l1 ->
    StronglySorted (fun a b => updatedAt b <= updatedAt a) l2 ->
    l1 = l2.
Proof.
  induction l1 as [ | x l1 IH]; intros Hnd l2 Hp S1 S2.
  - apply Permutation_nil in Hp. now subst.
  - destruct l2 as [ | y l2];
      [ apply Permutation_sym, Permutation_nil in Hp; discriminate | ].
    inversion S1 as [ | ? ? S1' F1]; inversion S2 as [ | ? ? S2' F2]; subst.
    rewrite Forall_forall in F1, F2.
    assert (Hy : In y (x :: l1))
      by (eapply Permutation_in; [apply Permutation_sym; exact Hp | now left]).
    assert (Hx : In x (y :: l2))
      by (eapply Permutation_in; [exact Hp | now left]).
    assert (E : updatedAt x = updatedAt y).
    { destruct Hy as [-> | Hy]; [reflexivity | ].
      destruct Hx as [-> | Hx]; [reflexivity | ].
      specialize (F1 y Hy). specialize (F2 x Hx). lia. }
    assert (x = y)
      by (apply (same_time_same_note (x :: l1)); simpl; auto). subst y.
    f_equal. apply IH.
    + simpl in Hnd. now inversion Hnd.
    + eapply Permutation_cons_inv. exact Hp.
    + exact S1'.
    + exact S2'.
Qed.

(** X16. Pages put end to end give the whole list. Let no two notes of
    the caller have the same [updatedAt], so that the order of the list
    is the one the source asks for and no other: every arrangement of
    the caller's notes that is newest first is the same list. For
    queries asking for pages 1, 2, ..., n with one limit [l] ([n * l]
    being an integer a JavaScript number holds exactly), the notes of the
    answers, concatenated, are the first [n * l] notes of that list, each
    once; when [n * l] reaches the number of notes, they are all the
    notes of the caller. *)
Theorem pages_cover (user : User) (st : State) (l : Z) (qs : list Query) :
  1 <= l <= 100 ->
  distinct_times user st ->
  exact (Z.of_nat (List.length qs) * l) ->
  (forall k q, nth_error qs k = Some q ->
               parse_page q = Num (Z.of_nat k + 1) /\ parse_limit q = Num l) ->
  let pages :=
    List.concat (List.map (fun q => page_data (fst (all user q st))) qs) in
  (forall arrangement,
     Permutation arrangement (filter (owned_by (user_id user)) (notes st)) ->
     StronglySorted (fun a b => updatedAt b <= updatedAt a) arrangement ->
     arrangement = shelf user st)
  /\ pages = List.map select
               (firstn (List.length qs * Z.to_nat l) (shelf user st))
  /\ (Z.of_nat (List.length (shelf user st)) <= Z.of_nat (List.length qs) * l ->
      pages = List.map select (shelf user st)).
Proof.
  intros Hl Hd X H. cbv zeta. split; [ | ].
  - intros arr Hp Hs. symmetry. unfold shelf.
    apply newest_first_unique.
    + unfold distinct_times in Hd.
      eapply Permutation_NoDup; [ | exact Hd ].
      apply Permutation_map, Permutation_sym, order_desc_perm.
    + rewrite order_desc_perm. now apply Permutation_sym.
    + apply order_desc_sorted.
    + exact Hs.
  - rewrite (pages_from user st l qs Hl 0 X H). simpl skipn.
    split; [reflexivity | ].
    intros Hn. rewrite firstn_all2; [reflexivity | ]. nia.
Qed.

Lemma pages_cover_witness :
  List.concat (List.map (fun q => page_data (fst (all alice q st25)))
                 [mkQuery None (Some (js "10"));
                  mkQuery (Some (js "2")) (Some (js "10"));
                  mkQuery (Some (js "3")) (Some (js "10"))])
  = List.map select (shelf alice st25).
Proof.
  apply (pages_cover alice st25 10
           [mkQuery None (Some (js "10"));
            mkQuery (Some (js "2")) (Some (js "10"));
            mkQuery (Some (js "3")) (Some (js "10"))]).
  - lia.
  - unfold distinct_times. vm_compute.
    repeat (constructor; [ simpl; intuition discriminate | ]). constructor.
  - unfold exact. simpl. lia.
  - intros [ | [ | [ | [ | k]]]] q Hk; simpl in Hk; inversion Hk; subst;
      split; reflexivity.
  - vm_compute. discriminate.
Defined.

End Paging.

(* ================================================================== *)
(** ** More on identifiers *)

Module IdentifierFacts.

Local Open Scope N_scope.

Lemma hexGroup_alphabet (k : nat) (g : jsstring) :
  hexGroup k g -> Forall (fun c => isHexDigit c = true \/ c = 45) g.
Proof.
  intros [_ H]. rewrite forallb_forall in H.
  apply Forall_forall. intros c Hc. left. now apply H.
Qed.

Lemma optionalHyphen_alphabet (h : jsstring) :
  optionalHyphen h ->
  (List.length h <= 1)%nat /\ Forall (fun c => isHexDigit c = true \/ c = 45) h.
Proof.
  intros [-> | ->]; simpl; (split; [lia | ]).
  - constructor.
  - constructor; [now right | constructor].
Qed.

Lemma variant_is_hex (v : codeunit) :
  isVariantNibble v = true -> isHexDigit v = true.
Proof. intros H. n2p. lia. Qed.

(** X17. An identifier the handlers accept has between 32 and 36 code
    units, all of them hexadecimal digits or hyphens. *)
Theorem accepted_id_alphabet (i : jsstring) :
  invalid_id i = false ->
  (32 <= List.length i <= 36)%nat
  /\ Forall (fun c => isHexDigit c = true \/ c = 45) i.
Proof.
  intros H. apply invalid_id_shape in H.
  destruct H as (g1 & h1 & g2 & h2 & g3 & h3 & v & g4 & h4 & g5 & -> & H1 & H2
                 & H3 & Hv & H4 & H5 & Hh1 & Hh2 & Hh3 & Hh4).
  apply optionalHyphen_alphabet in Hh1, Hh2, Hh3, Hh4.
  destruct Hh1 as [L1 F1], Hh2 as [L2 F2], Hh3 as [L3 F3], Hh4 as [L4 F4].
  split.
  - rewrite !length_app.
    change (List.length (52 :: g3)) with (S (List.length g3)).
    change (List.length (v :: g4)) with (S (List.length g4)).
    destruct H1 as [E1 _], H2 as [E2 _], H3 as [E3 _], H4 as [E4 _],
             H5 as [E5 _].
    unfold jsstring, codeunit in *. lia.
  - repeat (apply Forall_app; split);
      try (eapply hexGroup_alphabet; eassumption); try assumption.
    + constructor; [now left | eapply hexGroup_alphabet; eassumption].
    + constructor; [left; now apply variant_is_hex
                   | eapply hexGroup_alphabet; eassumption].
Qed.

Lemma accepted_id_alphabet_witness :
  (32 <= List.length sample_id <= 36)%nat.
Proof.
  exact (proj1 (accepted_id_alphabet sample_id eq_refl)).
Defined.

Lemma canonicalize_idem (c : codeunit) :
  canonicalize (canonicalize c) = canonicalize c.
Proof.
  destruct (canonicalize_cases c) as [[H E] | [H E]]; rewrite E.
  - destruct (canonicalize_cases (c - 32)) as [[H' E'] | [H' E']]; [lia | exact E'].
  - exact E.
Qed.

Lemma sameChar_canonicalize (a c : codeunit) :
  sameChar a (canonicalize c) = sameChar a c.
Proof. unfold sameChar. now rewrite canonicalize_idem. Qed.

Lemma flat_map_upper (f : jsstring -> list jsstring) (l : list jsstring) :
  (forall s, f (List.map canonicalize s)
             = List.map (List.map canonicalize) (f s)) ->
  flat_map f (List.map (List.map canonicalize) l)
  = List.map (List.map canonicalize) (flat_map f l).
Proof.
  intros H. induction l as [ | x l IH]; simpl; [reflexivity | ].
  now rewrite H, IH, map_app.
Qed.

(** Matching commutes with upper-casing the subject. *)
Lemma rmatch_upper (r : regex) :
  forall s, rmatch r (List.map canonicalize s)
            = List.map (List.map canonicalize) (rmatch r s).
Proof.
  induction r as [ | a | ms | r IH | r IH n | r1 IH1 r2 IH2 ]; intros s.
  - reflexivity.
  - destruct s as [ | c s]; simpl; [reflexivity | ].
    rewrite sameChar_canonicalize. now destruct (sameChar a c).
  - destruct s as [ | c s]; simpl; [reflexivity | ].
    assert (E : existsb (fun a => sameChar a (canonicalize c)) ms
                = existsb (fun a => sameChar a c) ms).
    { induction ms as [ | m ms IHm]; simpl; [reflexivity | ].
      now rewrite sameChar_canonicalize, IHm. }
    rewrite E. clear E.
    destruct (existsb (fun a => sameChar a c) ms); reflexivity.
  - simpl. now rewrite IH, map_app.
  - revert s. induction n as [ | n IHn]; intros s; [reflexivity | ].
    rewrite !rmatch_rep, IH. now apply flat_map_upper.
  - simpl. rewrite IH1. now apply flat_map_upper.
Qed.

(** X18. The verdict on an identifier does not depend on the case of its
    letters: an identifier and its upper-case form are accepted or
    rejected together. *)
Theorem verdict_ignores_case (i : jsstring) :
  invalid_id (List.map canonicalize i) = invalid_id i.
Proof.
  unfold invalid_id, test. rewrite rmatch_upper. f_equal.
  - now destruct i.
  - f_equal. induction (rmatch uuid_re i) as [ | x l IH]; simpl;
      [reflexivity | ].
    rewrite IH. now destruct x.
Qed.

End IdentifierFacts.
